(** * Ring puckering analysis (Cremer-Pople): embedding of [ring_analysis.py]

    The numerical core of the repository is embedded function by function:
    [translate], [get_mean_plane], [get_normal], [fix_zero], [displacement],
    [get_ring_pucker_coords], [get_total_puckering_amplitude],
    [get_spherical_polar_set_n6], [conformation_haversine] and
    [get_pucker_values].

    Numbers.  The file has two embeddings of a NumPy [float64].

    - [Np.float64]: an exact real number, or one of the three IEEE special
      values [+inf], [-inf], [nan].  Special values follow the IEEE-754
      tables; rounding, overflow and the sign of zero are not modelled.  It
      carries the whole pipeline, whose [sin], [cos] and [arctan2] NumPy
      does not fix to the last bit, and is used for what does not depend on
      rounding: which exception a call ends in, the shapes of the arrays,
      which arguments are read, where [nan] appears.

    - [Binary64.float64]: the IEEE-754 binary64 numbers of the Standard
      Library, with rounding to nearest even, overflow and signed zeros.
      It carries [conformation_haversine] and [translate], which use only
      [+], [-], [*], [/], [sqrt], [%] and comparisons; what is said about
      the values they compute is said there.

    Exceptions.  A Python call either returns a value or raises; [result]
    keeps the name of the exception class that is raised. *)

From Stdlib Require Import Floats.
From Stdlib Require Import Reals Lra Lia String ZArith Bool Arith List Sorted.
Import ListNotations.

Open Scope R_scope.

(* ================================================================== *)
(** * NumPy numbers and arrays *)
(* ================================================================== *)

Module Np.

Inductive float64 : Type :=
| Fin (r : R)
| PInf
| NInf
| NaN.

Definition is_finite (x : float64) : Prop :=
  match x with Fin _ => True | _ => False end.

(** Three-way case on the sign of a real. *)
Definition by_sign {A : Type} (r : R) (neg zero pos : A) : A :=
  if Rlt_dec r 0 then neg else if Rlt_dec 0 r then pos else zero.

Definition neg (x : float64) : float64 :=
  match x with
  | Fin a => Fin (- a)
  | PInf => NInf
  | NInf => PInf
  | NaN => NaN
  end.

Definition add (x y : float64) : float64 :=
  match x, y with
  | NaN, _ => NaN
  | _, NaN => NaN
  | Fin a, Fin b => Fin (a + b)
  | PInf, NInf => NaN
  | NInf, PInf => NaN
  | PInf, _ => PInf
  | _, PInf => PInf
  | NInf, _ => NInf
  | _, NInf => NInf
  end.

Definition sub (x y : float64) : float64 := add x (neg y).

Definition mul (x y : float64) : float64 :=
  match x, y with
  | NaN, _ => NaN
  | _, NaN => NaN
  | Fin a, Fin b => Fin (a * b)
  | Fin a, PInf => by_sign a NInf NaN PInf
  | PInf, Fin a => by_sign a NInf NaN PInf
  | Fin a, NInf => by_sign a PInf NaN NInf
  | NInf, Fin a => by_sign a PInf NaN NInf
  | PInf, PInf => PInf
  | NInf, NInf => PInf
  | PInf, NInf => NInf
  | NInf, PInf => NInf
  end.

(** True division.  NumPy does not raise on a zero divisor: it warns and
    returns [nan] for [0/0] and an infinity for [x/0]. *)
Definition div (x y : float64) : float64 :=
  match x, y with
  | NaN, _ => NaN
  | _, NaN => NaN
  | Fin a, Fin b =>
      if Req_dec_T b 0 then by_sign a NInf NaN PInf else Fin (a / b)
  | Fin _, PInf => Fin 0
  | Fin _, NInf => Fin 0
  | PInf, Fin b => if Rlt_dec b 0 then NInf else PInf
  | NInf, Fin b => if Rlt_dec b 0 then PInf else NInf
  | PInf, PInf => NaN
  | PInf, NInf => NaN
  | NInf, PInf => NaN
  | NInf, NInf => NaN
  end.

Definition square (x : float64) : float64 := mul x x.

Definition sqrt (x : float64) : float64 :=
  match x with
  | Fin a => if Rlt_dec a 0 then NaN else Fin (R_sqrt.sqrt a)
  | PInf => PInf
  | NInf => NaN
  | NaN => NaN
  end.

Definition sin (x : float64) : float64 :=
  match x with Fin a => Fin (Rtrigo_def.sin a) | _ => NaN end.

Definition cos (x : float64) : float64 :=
  match x with Fin a => Fin (Rtrigo_def.cos a) | _ => NaN end.

(** [x < y]; every comparison with [nan] is false. *)
Definition lt (x y : float64) : bool :=
  match x, y with
  | NaN, _ => false
  | _, NaN => false
  | Fin a, Fin b => if Rlt_dec a b then true else false
  | Fin _, PInf => true
  | NInf, Fin _ => true
  | NInf, PInf => true
  | _, _ => false
  end.

(** The quadrant-aware arc tangent of [y/x] on real arguments, in
    [(-pi, pi]]; [arctan2 0 0 = 0]. *)
Definition Ratan2 (y x : R) : R :=
  if Rlt_dec 0 x then atan (y / x)
  else if Rlt_dec x 0 then
    (if Rlt_dec y 0 then atan (y / x) - PI else atan (y / x) + PI)
  else by_sign y (- (PI / 2)) 0 (PI / 2).

Definition arctan2 (y x : float64) : float64 :=
  match y, x with
  | NaN, _ => NaN
  | _, NaN => NaN
  | Fin a, Fin b => Fin (Ratan2 a b)
  | Fin a, PInf => Fin 0
  | Fin a, NInf => if Rlt_dec a 0 then Fin (- PI) else Fin PI
  | PInf, Fin _ => Fin (PI / 2)
  | NInf, Fin _ => Fin (- (PI / 2))
  | PInf, PInf => Fin (PI / 4)
  | NInf, PInf => Fin (- (PI / 4))
  | PInf, NInf => Fin (3 * PI / 4)
  | NInf, NInf => Fin (- (3 * PI / 4))
  end.

(** [x % m] on floats: the result has the sign of the divisor,
    [x - m * floor (x / m)] on finite arguments; NumPy gives [nan] for a
    zero divisor and for an infinite [x]. *)
Definition Rmod (a m : R) : R := a - m * IZR (Int_part (a / m)).

Definition mod_ (x m : float64) : float64 :=
  match x, m with
  | NaN, _ => NaN
  | _, NaN => NaN
  | PInf, _ => NaN
  | NInf, _ => NaN
  | Fin a, Fin b => if Req_dec_T b 0 then NaN else Fin (Rmod a b)
  | Fin a, PInf => if Rlt_dec a 0 then PInf else Fin a
  | Fin a, NInf => if Rlt_dec 0 a then NInf else Fin a
  end.

Definition pi : float64 := Fin PI.

Definition of_Z (z : Z) : float64 := Fin (IZR z).
Definition of_nat (n : nat) : float64 := Fin (INR n).

(** [np.deg2rad] and [np.degrees]. *)
Definition deg2rad (x : float64) : float64 := mul x (Fin (PI / 180)).
Definition degrees (x : float64) : float64 := mul x (Fin (180 / PI)).

(** [np.isclose(0, x, rtol, atol)]: [|0 - x| <= atol + rtol * |x|] on
    finite [x]; an infinity or a [nan] is never close to [0]. *)
Definition isclose0 (rtol atol : R) (x : float64) : bool :=
  match x with
  | Fin a => if Rle_dec (Rabs a) (atol + rtol * Rabs a) then true else false
  | _ => false
  end.

Definition allclose0 (rtol atol : R) (xs : list float64) : bool :=
  forallb (isclose0 rtol atol) xs.

(** One-dimensional arrays are lists.  [np.dot] of two vectors of equal
    length. *)
Definition dot (xs ys : list float64) : float64 :=
  fold_left add (map (fun p => mul (fst p) (snd p)) (combine xs ys)) (Fin 0).

(** [np.arange(0, N)]. *)
Definition arange (N : nat) : list nat := seq 0 N.

(** [range(a, b)]. *)
Definition range (a b : nat) : list nat := seq a (b - a).

End Np.

Import Np.

(* ================================================================== *)
(** * Python results *)
(* ================================================================== *)

(** A call returns a value or raises an exception, recorded by the name of
    its class. *)
Inductive result (A : Type) : Type :=
| Ok (a : A)
| Raise (exc : string).

Arguments Ok {A} a.
Arguments Raise {A} exc.

Definition bind {A B : Type} (r : result A) (k : A -> result B) : result B :=
  match r with
  | Ok a => k a
  | Raise e => Raise e
  end.

Notation "x <- e ;; k" := (bind e (fun x => k))
  (at level 61, e at next level, right associativity).
Notation "' p <- e ;; k" := (bind e (fun p => k))
  (at level 61, p pattern, e at next level, right associativity).

(** [xs[i]] for a non-negative index. *)
Definition getitem {A : Type} (xs : list A) (i : nat) : result A :=
  match nth_error xs i with
  | Some x => Ok x
  | None => Raise "IndexError"
  end.

(** An elementwise binary operation on two one-dimensional arrays, with
    NumPy's broadcasting rule: equal lengths ([zip_with]), or one side of
    length one. *)
Definition zip_with (f : float64 -> float64 -> float64)
    (xs ys : list float64) : list float64 :=
  map (fun p => f (fst p) (snd p)) (combine xs ys).

Definition broadcast2 (f : float64 -> float64 -> float64)
    (xs ys : list float64) : result (list float64) :=
  if (length xs =? length ys)%nat then Ok (zip_with f xs ys)
  else
    match xs, ys with
    | [x], _ => Ok (map (f x) ys)
    | _, [y] => Ok (map (fun x => f x y) xs)
    | _, _ => Raise "ValueError"
    end.

(* ================================================================== *)
(** * Points and coordinate arrays *)
(* ================================================================== *)

(** A row of an [(N, 3)] coordinate array. *)
Record vec3 : Type := mkvec { vx : float64; vy : float64; vz : float64 }.

Definition vzero : vec3 := mkvec (Fin 0) (Fin 0) (Fin 0).

Definition vadd (p q : vec3) : vec3 :=
  mkvec (add (vx p) (vx q)) (add (vy p) (vy q)) (add (vz p) (vz q)).

Definition vsub (p q : vec3) : vec3 :=
  mkvec (sub (vx p) (vx q)) (sub (vy p) (vy q)) (sub (vz p) (vz q)).

(** [w * p] and [p / d] for a scalar. *)
Definition vscale (w : float64) (p : vec3) : vec3 :=
  mkvec (mul w (vx p)) (mul w (vy p)) (mul w (vz p)).

Definition vdivs (p : vec3) (d : float64) : vec3 :=
  mkvec (div (vx p) d) (div (vy p) d) (div (vz p) d).

(** [np.dot(p, n)] of two 3-vectors. *)
Definition vdot (p n : vec3) : float64 :=
  add (add (mul (vx p) (vx n)) (mul (vy p) (vy n))) (mul (vz p) (vz n)).

(** [np.cross]. *)
Definition cross (a b : vec3) : vec3 :=
  mkvec (sub (mul (vy a) (vz b)) (mul (vz a) (vy b)))
        (sub (mul (vz a) (vx b)) (mul (vx a) (vz b)))
        (sub (mul (vx a) (vy b)) (mul (vy a) (vx b))).

(** [np.linalg.norm] of a 3-vector. *)
Definition norm (v : vec3) : float64 := sqrt (vdot v v).

(** [coordinates.sum(axis=0)] and [coordinates.mean(axis=0)]. *)
Definition sum_axis0 (coordinates : list vec3) : vec3 :=
  fold_left vadd coordinates vzero.

Definition mean_axis0 (coordinates : list vec3) : vec3 :=
  vdivs (sum_axis0 coordinates) (of_nat (length coordinates)).

(** [np.dot(w, coordinates)] for a weight vector [w] of length [N]. *)
Definition weighted_sum (w : list float64) (coordinates : list vec3) : vec3 :=
  sum_axis0 (map (fun wp => vscale (fst wp) (snd wp)) (combine w coordinates)).

(* ================================================================== *)
(** * The puckering engine *)
(* ================================================================== *)

Definition translate (coordinates : list vec3) : list vec3 :=
  map (fun p => vsub p (mean_axis0 coordinates)) coordinates.

(** [2 * np.pi * np.arange(0, N) / N] at index [j]. *)
Definition plane_angle (N j : nat) : float64 :=
  div (mul (mul (Fin 2) pi) (of_nat j)) (of_nat N).

Definition get_mean_plane (coordinates : list vec3) : vec3 * vec3 :=
  let N := length coordinates in
  let R1 := weighted_sum (map (fun j => sin (plane_angle N j)) (arange N))
                         coordinates in
  let R2 := weighted_sum (map (fun j => cos (plane_angle N j)) (arange N))
                         coordinates in
  (R1, R2).

Definition get_normal (coordinates : list vec3) : vec3 :=
  let '(R1, R2) := get_mean_plane coordinates in
  let cross_product := cross R1 R2 in
  vdivs cross_product (norm cross_product).

Definition rtol : R := 1e-6.
Definition atol : R := 1e-8.

Definition fix_zero (x : list float64) : list float64 :=
  if allclose0 rtol atol x then [Fin 0] else x.

Definition displacement (coordinates : list vec3) : list float64 :=
  let n := get_normal coordinates in
  map (fun p => vdot p n) coordinates.

(** [2 * np.pi * k * np.arange(0, N) / N] at index [j]. *)
Definition fourier_angle (N k j : nat) : float64 :=
  div (mul (mul (mul (Fin 2) pi) (of_nat k)) (of_nat j)) (of_nat N).

Definition cos_component (N : nat) (z : list float64) (m : list nat)
  : list float64 :=
  map (fun k => dot z (map (fun j => cos (fourier_angle N k j)) (arange N))) m.

Definition sin_component (N : nat) (z : list float64) (m : list nat)
  : list float64 :=
  map (fun k => dot z (map (fun j => sin (fourier_angle N k j)) (arange N))) m.

(** [np.where(angle_rad < 0, angle_rad + 2 * np.pi, angle_rad)]. *)
Definition wrap_angle (a : float64) : float64 :=
  if lt a (Fin 0) then add a (mul (Fin 2) pi) else a.

(** The three arrays [amplitude, angle_deg, angle_rad]. *)
Definition pucker_coords : Type :=
  (list float64 * list float64 * list float64)%type.

Definition get_ring_pucker_coords (coordinates : list vec3)
  : result pucker_coords :=
  let N := length coordinates in
  let z := displacement coordinates in
  if ((4 <? N) && (N <=? 20))%nat then
    if (N mod 2 =? 0)%nat then
      let m := range 2 (N / 2) in
      let qcos := map (mul (sqrt (div (Fin 2) (of_nat N))))
                      (cos_component N z m) in
      let qsin := map (mul (neg (sqrt (div (Fin 2) (of_nat N)))))
                      (sin_component N z m) in
      s <- broadcast2 add (map square qsin) (map square qcos) ;;
      let q := map sqrt s in
      let amplitude :=
        q ++ [mul (div (Fin 1) (sqrt (of_nat N)))
                  (dot z (map (fun j => cos (mul (of_nat j) pi)) (arange N)))] in
      angle_rad <- broadcast2 arctan2 qsin qcos ;;
      let angle_rad := map wrap_angle angle_rad in
      let angle_deg := map degrees angle_rad in
      Ok (amplitude, angle_deg, angle_rad)
    else
      let m := range 2 ((N - 1) / 2 + 1) in
      let qcos := fix_zero (map (mul (sqrt (div (Fin 2) (of_nat N))))
                                (cos_component N z m)) in
      let qsin := fix_zero (map (mul (neg (sqrt (div (Fin 2) (of_nat N)))))
                                (sin_component N z m)) in
      s <- broadcast2 add (map square qsin) (map square qcos) ;;
      let amplitude := map sqrt s in
      angle_rad <- broadcast2 arctan2 qsin qcos ;;
      let angle_rad := map wrap_angle angle_rad in
      let angle_deg := map degrees angle_rad in
      Ok (amplitude, angle_deg, angle_rad)
  else
    (* prints "Ring Size is too big or too small", then the [return]
       reads the local [amplitude], which was never assigned *)
    Raise "UnboundLocalError".

(** [np.square(amplitude).sum()]. *)
Definition sum_squares (amplitude : list float64) : float64 :=
  fold_left add (map square amplitude) (Fin 0).

Definition get_total_puckering_amplitude (amplitude : list float64) : float64 :=
  sqrt (sum_squares amplitude).

Definition get_spherical_polar_set_n6 (amplitude angle_deg : list float64)
  : result (float64 * float64 * float64) :=
  let Q := sqrt (sum_squares amplitude) in
  q2 <- getitem amplitude 0 ;;
  q3 <- getitem amplitude 1 ;;
  let theta_deg := degrees (arctan2 q2 q3) in
  phi_deg <- getitem angle_deg 0 ;;
  Ok (Q, theta_deg, phi_deg).

(* ================================================================== *)
(** * The conformation classifier *)
(* ================================================================== *)

(** The value stored under a conformation name: the reference angles, in
    degrees.  Either key may be absent. *)
Record ref_angles : Type :=
  { theta : option (list Z); phi : option (list Z) }.

(** The [conformations] dictionary, in insertion order (the order in which
    [conformations.items()] yields it). *)
Definition conformations : list (string * ref_angles) :=
  [ ("Chair (C)"%string,
      {| theta := Some [0; 180]%Z; phi := None |});
    ("Boat (B)"%string,
      {| theta := Some [90]%Z; phi := Some [0; 60; 120; 180; 240; 300]%Z |});
    ("Twist-Boat (TB)"%string,
      {| theta := Some [90]%Z; phi := Some [30; 90; 150; 210; 270; 330]%Z |});
    ("Half-Chair (HC)"%string,
      {| theta := Some [30; 150]%Z; phi := None |});
    ("Half-Boat (HB)"%string,
      {| theta := Some [60; 120]%Z; phi := None |}) ].

(** [angles.get(key, [default])] followed by [np.deg2rad]. *)
Definition refs_rad (entry : option (list Z)) (default : float64)
  : list float64 :=
  map deg2rad
      (match entry with
       | Some l => map of_Z l
       | None => [default]
       end).

(** [np.linalg.norm] of the one-row array [[a, b]]. *)
Definition norm2 (a b : float64) : float64 :=
  sqrt (add (square a) (square b)).

(** The loop state: [min_distance] and [assigned_conformation]. *)
Definition search_state : Type := (float64 * option string)%type.

(** The [distance] computed in the innermost loop, from the query point
    [(lat1, lon1)] to the reference [(theta_ref, phi_ref)] (in radians). *)
Definition landmark_distance (lat1 lon1 theta_ref phi_ref : float64)
  : float64 :=
  let lat2 := deg2rad (sub (Fin 90) (degrees theta_ref)) in
  let lon2 := deg2rad (degrees phi_ref) in
  norm2 (sub lat1 lat2) (sub lon1 lon2).

(** The body of the innermost loop. *)
Definition visit (lat1 lon1 : float64) (conformation : string)
    (theta_ref phi_ref : float64) (st : search_state) : search_state :=
  let distance := landmark_distance lat1 lon1 theta_ref phi_ref in
  if lt distance (fst st) then (distance, Some conformation) else st.

Definition conformation_haversine (amplitude : list float64)
    (theta_deg phi_deg : float64) : option string :=
  let theta_deg := mod_ theta_deg (Fin 180) in
  let phi_deg := mod_ phi_deg (Fin 360) in
  let lat1 := deg2rad (sub (Fin 90) theta_deg) in
  let lon1 := deg2rad phi_deg in
  snd
    (fold_left
       (fun st (item : string * ref_angles) =>
          let '(conformation, angles) := item in
          let theta_refs := refs_rad (theta angles) theta_deg in
          let phi_refs := refs_rad (phi angles) phi_deg in
          fold_left
            (fun st theta_ref =>
               fold_left
                 (fun st phi_ref =>
                    visit lat1 lon1 conformation theta_ref phi_ref st)
                 phi_refs st)
            theta_refs st)
       conformations
       (PInf, None)).

(** The landmarks in the order in which the three nested loops visit them,
    each with its family name and its distance to the query. *)
Definition landmark_distances (theta_deg phi_deg : float64)
  : list (string * float64) :=
  let theta_deg := mod_ theta_deg (Fin 180) in
  let phi_deg := mod_ phi_deg (Fin 360) in
  let lat1 := deg2rad (sub (Fin 90) theta_deg) in
  let lon1 := deg2rad phi_deg in
  flat_map
    (fun item : string * ref_angles =>
       let '(conformation, angles) := item in
       flat_map
         (fun theta_ref =>
            map (fun phi_ref =>
                   (conformation,
                    landmark_distance lat1 lon1 theta_ref phi_ref))
                (refs_rad (phi angles) phi_deg))
         (refs_rad (theta angles) theta_deg))
    conformations.

(** One step of the search over a list of (family, distance) pairs. *)
Definition keep_closer (st : search_state) (cd : string * float64)
  : search_state :=
  if lt (snd cd) (fst st) then (snd cd, Some (fst cd)) else st.

(** Entry [i] of a list of (family, distance) pairs is the first closest
    one: no entry is strictly closer and every earlier entry is strictly
    farther. *)
Definition first_closest (l : list (string * float64)) (i : nat)
    (c : string) (d : float64) : Prop :=
  nth_error l i = Some (c, d)
  /\ (forall j cd, nth_error l j = Some cd -> lt (snd cd) d = false)
  /\ (forall j cd, (j < i)%nat -> nth_error l j = Some cd ->
                   lt d (snd cd) = true).

(** The five family names, in the order of the dictionary, and the position
    of a name in that order. *)
Definition family_names : list string := map fst conformations.

Fixpoint index_of (name : string) (names : list string) : nat :=
  match names with
  | [] => 0
  | x :: rest => if String.eqb x name then 0 else S (index_of name rest)
  end.

Definition family_rank (name : string) : nat := index_of name family_names.

(** The family of each landmark, in visiting order. *)
Definition landmark_labels : list string :=
  ["Chair (C)"; "Chair (C)";
   "Boat (B)"; "Boat (B)"; "Boat (B)"; "Boat (B)"; "Boat (B)"; "Boat (B)";
   "Twist-Boat (TB)"; "Twist-Boat (TB)"; "Twist-Boat (TB)";
   "Twist-Boat (TB)"; "Twist-Boat (TB)"; "Twist-Boat (TB)";
   "Half-Chair (HC)"; "Half-Chair (HC)";
   "Half-Boat (HB)"; "Half-Boat (HB)"]%string.

(* ================================================================== *)
(** * The per-system pipeline *)
(* ================================================================== *)

(** Ring indices for the DKP series. *)
Definition ring_indices : list (string * list nat) :=
  [ ("cGlyGly"%string, [0; 1; 2; 3; 4; 5]%nat);
    ("cAlaAla"%string, [4; 3; 2; 1; 0; 5]%nat);
    ("cHisHis"%string, [0; 1; 2; 3; 4; 5]%nat);
    ("cHisHis2+"%string, [0; 1; 2; 3; 4; 5]%nat);
    ("cPhgPhg"%string, [2; 1; 0; 5; 4; 3]%nat);
    ("cLeuLeu"%string, [0; 4; 5; 3; 2; 1]%nat);
    ("cValVal"%string, [4; 3; 2; 1; 0; 5]%nat);
    ("cTrpTrp"%string, [0; 1; 2; 3; 4; 5]%nat);
    ("cPhePhe"%string, [0; 5; 4; 3; 2; 1]%nat) ].

(** [ring_indices[system_name]]. *)
Fixpoint lookup (d : list (string * list nat)) (key : string)
  : result (list nat) :=
  match d with
  | [] => Raise "KeyError"
  | (k, v) :: d' => if String.eqb k key then Ok v else lookup d' key
  end.

(** A data frame with columns [Atom], [X], [Y], [Z]: one row per atom. *)
Definition dataframe : Type := list (string * vec3).

(** [df.iloc[indices]]. *)
Fixpoint get_ring_coord (df : dataframe) (indices : list nat)
  : result dataframe :=
  match indices with
  | [] => Ok []
  | i :: rest =>
      row <- getitem df i ;;
      rows <- get_ring_coord df rest ;;
      Ok (row :: rows)
  end.

Record pucker_values : Type :=
  { pv_amplitude : list float64;
    pv_angle_deg : list float64;
    pv_Q : float64;
    pv_theta_deg : float64;
    pv_phi_deg : float64;
    pv_conformation : option string }.

(** The numerical part of [get_pucker_values], from the ring coordinates
    on: [translate], [get_ring_pucker_coords], [get_spherical_polar_set_n6]. *)
Definition pucker_pipeline (ring : list vec3)
  : result (pucker_coords * (float64 * float64 * float64)) :=
  let coordinates := translate ring in
  pc <- get_ring_pucker_coords coordinates ;;
  let '(amplitude, angle_deg, angle_rad) := pc in
  sp <- get_spherical_polar_set_n6 amplitude angle_deg ;;
  Ok (pc, sp).

Definition get_pucker_values (df : dataframe) (system_name : string)
  : result pucker_values :=
  indices <- lookup ring_indices system_name ;;
  ring_atoms <- get_ring_coord df indices ;;
  r <- pucker_pipeline (map snd ring_atoms) ;;
  let '((amplitude, angle_deg, angle_rad), (Q, theta_deg, phi_deg)) := r in
  let conformation := conformation_haversine amplitude theta_deg phi_deg in
  Ok {| pv_amplitude := amplitude;
        pv_angle_deg := angle_deg;
        pv_Q := Q;
        pv_theta_deg := theta_deg;
        pv_phi_deg := phi_deg;
        pv_conformation := conformation |}.

(* ================================================================== *)
(** * Sample inputs *)
(* ================================================================== *)

(** A point with real coordinates. *)
Definition pt (x y z : R) : vec3 := mkvec (Fin x) (Fin y) (Fin z).

(** Three atoms: too small a ring. *)
Definition ring3 : list vec3 := [pt 1 0 0; pt 0 1 0; pt 0 0 1].

(** Six atoms at one and the same position: the mean-plane axes vanish. *)
Definition collapsed_ring6 : list vec3 :=
  [pt 0 0 0; pt 0 0 0; pt 0 0 0; pt 0 0 0; pt 0 0 0; pt 0 0 0].

(** Six atoms, two of them off the origin, spanning a proper mean plane. *)
Definition open_ring6 : list vec3 :=
  [pt 1 0 0; pt 0 1 0; pt 0 0 0; pt 0 0 0; pt 0 0 0; pt 0 0 0].

(** All coordinates of a point, or of a ring, are finite numbers. *)
Definition vfinite (p : vec3) : Prop :=
  is_finite (vx p) /\ is_finite (vy p) /\ is_finite (vz p).

Definition ring_finite (coordinates : list vec3) : Prop :=
  Forall vfinite coordinates.

(** [0 <= x] on floats: false on [nan]. *)
Definition nonneg (x : float64) : Prop :=
  match x with
  | Fin r => 0 <= r
  | PInf => True
  | NInf => False
  | NaN => False
  end.

(** The norm of the cross product of the two mean-plane axes. *)
Definition plane_cross_norm (coordinates : list vec3) : float64 :=
  norm (cross (fst (get_mean_plane coordinates))
              (snd (get_mean_plane coordinates))).

(** Named intermediate values of [get_ring_pucker_coords]: the scaled
    Fourier components [qcos] and [qsin] before [fix_zero], and the
    unpaired [k = N/2] term of an even ring. *)
Definition qcos_of (N : nat) (z : list float64) (m : list nat)
  : list float64 :=
  map (mul (sqrt (div (Fin 2) (of_nat N)))) (cos_component N z m).

Definition qsin_of (N : nat) (z : list float64) (m : list nat)
  : list float64 :=
  map (mul (neg (sqrt (div (Fin 2) (of_nat N))))) (sin_component N z m).

Definition unpaired_term (N : nat) (z : list float64) : float64 :=
  mul (div (Fin 1) (sqrt (of_nat N)))
      (dot z (map (fun j => cos (mul (of_nat j) pi)) (arange N))).

(** The two component arrays of an odd ring, as they are handed to
    [fix_zero]. *)
Definition odd_qcos (coordinates : list vec3) : list float64 :=
  let N := length coordinates in
  qcos_of N (displacement coordinates) (range 2 ((N - 1) / 2 + 1)).

Definition odd_qsin (coordinates : list vec3) : list float64 :=
  let N := length coordinates in
  qsin_of N (displacement coordinates) (range 2 ((N - 1) / 2 + 1)).

(** The ring has an even, respectively odd, number of atoms within the
    supported range. *)
Definition even_ring (coordinates : list vec3) : Prop :=
  (5 <= length coordinates <= 20)%nat /\ (length coordinates mod 2 = 0)%nat.

Definition odd_ring (coordinates : list vec3) : Prop :=
  (5 <= length coordinates <= 20)%nat /\ (length coordinates mod 2 = 1)%nat.

(** Five atoms: the smallest supported ring. *)
Definition ring5 : list vec3 :=
  [pt 1 0 0; pt 0 1 0; pt 0 0 0; pt 0 0 0; pt 0 0 0].

(** The real value of a finite number, and the real coordinates of a ring
    along one axis. *)
Definition to_R (x : float64) : R :=
  match x with Fin r => r | _ => 0 end.

Definition axis (f : vec3 -> float64) (coordinates : list vec3) : list R :=
  map (fun p => to_R (f p)) coordinates.

Definition Rsum (l : list R) : R := fold_right Rplus 0 l.

Definition Rmean (l : list R) : R := Rsum l / INR (length l).

(** A data frame whose six ring atoms all sit at the origin. *)
Definition coincident_atoms : dataframe :=
  [("C"%string, pt 0 0 0); ("N"%string, pt 0 0 0); ("C"%string, pt 0 0 0);
   ("C"%string, pt 0 0 0); ("N"%string, pt 0 0 0); ("C"%string, pt 0 0 0)].

(* ================================================================== *)
(** * Further definitions: selecting, parsing, batch analysis, export *)
(* ================================================================== *)

From Stdlib Require Import Permutation.

(** The keys of [ring_indices]. *)
Definition system_names : list string := map fst ring_indices.

(* ================================================================== *)
(** * Reading a geometry file, the batch loop and the exported record *)
(* ================================================================== *)

(** [c.isspace()] on an ASCII character: tab, line feed, vertical tab,
    form feed, carriage return, the four separators 28-31 and the space. *)
Definition is_space (c : Ascii.ascii) : bool :=
  let n := Ascii.nat_of_ascii c in
  ((9 <=? n) && (n <=? 13) || (28 <=? n) && (n <=? 32))%nat.

(** [line.split()]: the maximal runs of non-space characters.  [word] is
    the run being read. *)
Fixpoint split_from (word : string) (s : string) : list string :=
  match s with
  | EmptyString =>
      match word with EmptyString => [] | _ => [word] end
  | String c rest =>
      if is_space c then
        match word with
        | EmptyString => split_from EmptyString rest
        | _ => word :: split_from EmptyString rest
        end
      else split_from (word ++ String c EmptyString) rest
  end.

Definition split (line : string) : list string := split_from EmptyString line.

Section Parsing.

(** The builtin [float]: [None] stands for the [ValueError] it raises on a
    string that is not a number. *)
Variable float_of_string : string -> option float64.

(** The body of the loop over the lines: [parts = line.split()],
    [atom = parts[0]], [x, y, z = map(float, parts[1:4])]. *)
Definition parse_line (line : string) : result (string * vec3) :=
  let parts := split line in
  atom <- getitem parts 0 ;;
  match map float_of_string (firstn 3 (skipn 1 parts)) with
  | [Some x; Some y; Some z] => Ok (atom, mkvec x y z)
  | _ => Raise "ValueError"
  end.

(** The rows of the lines, in order, up to the first line that raises. *)
Fixpoint parse_lines (lines : list string) : result dataframe :=
  match lines with
  | [] => Ok []
  | line :: rest =>
      row <- parse_line line ;;
      rows <- parse_lines rest ;;
      Ok (row :: rows)
  end.

(** [parse_xyz_to_df], on the list that [f.readlines()] returns. *)
Definition parse_xyz_to_df (file_lines : list string) : result (nat * dataframe) :=
  let lines := skipn 2 file_lines in
  df <- parse_lines lines ;;
  let num_atoms := length df in
  Ok (num_atoms, df).

(** One entry of the list that [analyze_system] returns. *)
Record analysis_result : Type :=
  { system_name : string;
    chirality : string;
    puckering_values : pucker_values }.

(** [system_name in ring_indices]. *)
Definition registered (name : string) : bool :=
  existsb (String.eqb name) (map fst ring_indices).

(** The body of the loop over the files of one chirality folder, for a file
    given by the name of its parent folder and its lines: the results it
    appends (none when the file is skipped). *)
Definition analyze_file (chirality : string) (file : string * list string)
  : list analysis_result :=
  let '(system_name, file_lines) := file in
  if negb (registered system_name) then []
  else
    match (parsed <- parse_xyz_to_df file_lines ;;
           get_pucker_values (snd parsed) system_name) with
    | Ok puckering_values =>
        [ {| system_name := system_name;
             chirality := chirality;
             puckering_values := puckering_values |} ]
    | Raise _ => []
    end.

(** [analyze_system]: [folders chirality] is [None] when the chirality
    folder does not exist, and otherwise the [.xyz] files found under it, in
    the order in which [rglob] yields them. *)
Definition analyze_system
    (folders : string -> option (list (string * list string)))
  : list analysis_result :=
  flat_map
    (fun chirality =>
       match folders chirality with
       | Some xyz_files => flat_map (analyze_file chirality) xyz_files
       | None => []
       end)
    ["SS"%string; "SR"%string].

End Parsing.

(** A Python [dict] with string keys, in insertion order: [d[k] = v] and
    [d.get(k)]. *)
Fixpoint dict_set {V : Type} (d : list (string * V)) (k : string) (v : V)
  : list (string * V) :=
  match d with
  | [] => [(k, v)]
  | (k', v') :: d' =>
      if String.eqb k' k then (k', v) :: d' else (k', v') :: dict_set d' k v
  end.

Fixpoint dict_get {V : Type} (d : list (string * V)) (k : string) : option V :=
  match d with
  | [] => None
  | (k', v') :: d' => if String.eqb k' k then Some v' else dict_get d' k
  end.

(** The value stored for one system by [save_results]. *)
Record export_entry : Type :=
  { e_Amplitude : float64;
    e_theta : float64;
    e_phi : float64;
    e_conformation : option string }.

Definition export_key (r : analysis_result) : string :=
  (system_name r ++ "_" ++ chirality r)%string.

Definition export_value (r : analysis_result) : export_entry :=
  let puck := puckering_values r in
  {| e_Amplitude := pv_Q puck;
     e_theta := pv_theta_deg puck;
     e_phi := pv_phi_deg puck;
     e_conformation := pv_conformation puck |}.

(** The [export_dict] that [save_results] builds before it dumps it. *)
Definition export_dict (results : list analysis_result)
  : list (string * export_entry) :=
  fold_left (fun d r => dict_set d (export_key r) (export_value r))
            results [].

(** A line of ASCII characters.  On such a line [split] above is Python's
    [str.split()]; other Unicode white space is not modelled. *)
Definition ascii_only (line : string) : Prop :=
  forallb (fun c => (Ascii.nat_of_ascii c <? 128)%nat)
          (list_ascii_of_string line) = true.

(** A line that consists of white space only (the empty line included). *)
Definition blank (line : string) : Prop :=
  Forall (fun c => is_space c = true) (list_ascii_of_string line).

(** A small stand-in for [float], enough to read the sample files: it
    knows the numerals "0" and "1". *)
Definition digit_float (s : string) : option float64 :=
  if String.eqb s "0" then Some (Fin 0)
  else if String.eqb s "1" then Some (Fin 1)
  else None.

(* ================================================================== *)
(** * The classifier and [translate] in IEEE-754 binary64 arithmetic *)
(* ================================================================== *)

(** The functions of the source that use only [+], [-], [*], [/], [sqrt],
    [%] and comparisons are embedded a second time over the binary64 numbers
    of the Standard Library ([PrimFloat]): every operation rounds to nearest
    even, overflows to an infinity and propagates [nan] as the hardware
    does, so a value computed here is the value NumPy computes, bit for
    bit. *)

Module Binary64.

Import PrimFloat.
Open Scope float_scope.

Definition float64 : Set := float.

(** C's [fmod] on decoded numbers: the exact remainder of [|x|] by [|y|],
    with the sign of [x].  Both mantissas are brought to the smaller of the
    two exponents, so the remainder is an integer operation. *)
Definition SFfmod (x y : spec_float) : spec_float :=
  match x, y with
  | S754_nan, _ | _, S754_nan => S754_nan
  | S754_infinity _, _ => S754_nan
  | _, S754_zero _ => S754_nan
  | S754_zero s, _ => S754_zero s
  | S754_finite s m e, S754_infinity _ => S754_finite s m e
  | S754_finite sx mx ex, S754_finite _ my ey =>
      let e := Z.min ex ey in
      match (Z.shiftl (Zpos mx) (ex - e)) mod (Z.shiftl (Zpos my) (ey - e))
      with
      | Zpos r => S754_finite sx r e
      | _ => S754_zero sx
      end
  end%Z.

Definition fmod (x y : float64) : float64 :=
  SF2Prim (SFfmod (Prim2SF x) (Prim2SF y)).

(** [a % b] on floats, as Python and NumPy define it: [fmod], moved by [b]
    when its sign differs from the sign of [b]; a zero remainder takes the
    sign of [b]. *)
Definition mod_ (a b : float64) : float64 :=
  let m := fmod a b in
  if b =? 0 then m
  else if is_nan m then m
  else if m =? 0 then (if b <? 0 then -0 else 0)
  else if xorb (b <? 0) (m <? 0) then m + b
  else m.

Definition pi : float64 := 0x1.921fb54442d18p+1.

(** [np.deg2rad] and [np.degrees] multiply by one rounded constant. *)
Definition deg2rad (x : float64) : float64 := x * (pi / 180).
Definition degrees (x : float64) : float64 := x * (180 / pi).

(** A Python [int] converted to [float64]. *)
Definition of_Z (z : Z) : float64 :=
  match z with
  | Z0 => 0
  | Zpos _ => of_uint63 (Uint63.of_Z z)
  | Zneg p => - of_uint63 (Uint63.of_Z (Zpos p))
  end.

Definition of_nat (n : nat) : float64 := of_Z (Z.of_nat n).

(** ** [conformation_haversine] *)

Definition refs_rad (entry : option (list Z)) (default : float64)
  : list float64 :=
  map deg2rad
      (match entry with
       | Some l => map of_Z l
       | None => [default]
       end).

(** [np.linalg.norm] of the one-row array [[a, b]]: the square root of
    the dot product of the row with itself, every operation rounded. *)
Definition norm2 (a b : float64) : float64 := sqrt (a * a + b * b).

Definition search_state : Type := (float64 * option string)%type.

Definition landmark_distance (lat1 lon1 theta_ref phi_ref : float64)
  : float64 :=
  let lat2 := deg2rad (90 - degrees theta_ref) in
  let lon2 := deg2rad (degrees phi_ref) in
  norm2 (lat1 - lat2) (lon1 - lon2).

Definition visit (lat1 lon1 : float64) (conformation : string)
    (theta_ref phi_ref : float64) (st : search_state) : search_state :=
  let distance := landmark_distance lat1 lon1 theta_ref phi_ref in
  if distance <? fst st then (distance, Some conformation) else st.

Definition conformation_haversine (amplitude : list float64)
    (theta_deg phi_deg : float64) : option string :=
  let theta_deg := mod_ theta_deg 180 in
  let phi_deg := mod_ phi_deg 360 in
  let lat1 := deg2rad (90 - theta_deg) in
  let lon1 := deg2rad phi_deg in
  snd
    (fold_left
       (fun st (item : string * ref_angles) =>
          let '(conformation, angles) := item in
          let theta_refs := refs_rad (theta angles) theta_deg in
          let phi_refs := refs_rad (phi angles) phi_deg in
          fold_left
            (fun st theta_ref =>
               fold_left
                 (fun st phi_ref =>
                    visit lat1 lon1 conformation theta_ref phi_ref st)
                 phi_refs st)
            theta_refs st)
       conformations
       (infinity, None)).

(** The landmarks in the order in which the three nested loops visit them,
    each with its family name and its distance to the query. *)
Definition landmark_distances (theta_deg phi_deg : float64)
  : list (string * float64) :=
  let theta_deg := mod_ theta_deg 180 in
  let phi_deg := mod_ phi_deg 360 in
  let lat1 := deg2rad (90 - theta_deg) in
  let lon1 := deg2rad phi_deg in
  flat_map
    (fun item : string * ref_angles =>
       let '(conformation, angles) := item in
       flat_map
         (fun theta_ref =>
            map (fun phi_ref =>
                   (conformation,
                    landmark_distance lat1 lon1 theta_ref phi_ref))
                (refs_rad (phi angles) phi_deg))
         (refs_rad (theta angles) theta_deg))
    conformations.

(** One step of the search over a list of (family, distance) pairs. *)
Definition keep_closer (st : search_state) (cd : string * float64)
  : search_state :=
  if snd cd <? fst st then (snd cd, Some (fst cd)) else st.

(** Entry [i] of a list of (family, distance) pairs is the first closest
    one: no entry is strictly closer and every earlier entry is strictly
    farther. *)
Definition first_closest (l : list (string * float64)) (i : nat)
    (c : string) (d : float64) : Prop :=
  nth_error l i = Some (c, d)
  /\ (forall j cd, nth_error l j = Some cd -> (snd cd <? d) = false)
  /\ (forall j cd, (j < i)%nat -> nth_error l j = Some cd ->
                   (d <? snd cd) = true).

(** ** Magnitudes and order of decoded numbers *)

(** [|x| < 2^K]: the decoded number is a zero, or a finite number whose
    mantissa [m] and exponent [e] satisfy [m < 2^(K - e)]. *)
Definition below (K : Z) (x : spec_float) : Prop :=
  match x with
  | S754_zero _ => True
  | S754_finite _ m e => (Zpos m < 2 ^ (K - e))%Z
  | _ => False
  end.

(** The same, with the sign fixed. *)
Definition below_signed (K : Z) (s : bool) (x : spec_float) : Prop :=
  match x with
  | S754_zero s' => s' = s
  | S754_finite s' m e => s' = s /\ (Zpos m < 2 ^ (K - e))%Z
  | _ => False
  end.

Definition Below (K : Z) (x : float64) : Prop := below K (Prim2SF x).

Definition BelowPos (K : Z) (x : float64) : Prop :=
  below_signed K false (Prim2SF x).

(** The place of a decoded number on the extended real line, as a key that
    is compared lexicographically: [SFcompare] is the comparison of keys. *)
Definition key (x : spec_float) : Z * Z * Z :=
  match x with
  | S754_infinity true => (-2, 0, 0)
  | S754_finite true m e => (-1, - e, - Zpos m)
  | S754_zero _ | S754_nan => (0, 0, 0)
  | S754_finite false m e => (1, e, Zpos m)
  | S754_infinity false => (2, 0, 0)
  end%Z.

Definition key_lt (a b : Z * Z * Z) : Prop :=
  (fst (fst a) < fst (fst b)
   \/ (fst (fst a) = fst (fst b)
       /\ (snd (fst a) < snd (fst b)
           \/ (snd (fst a) = snd (fst b) /\ snd a < snd b))))%Z.

(** ** [translate] *)

Record vec3 : Set := mkvec { vx : float64; vy : float64; vz : float64 }.

Definition vadd (p q : vec3) : vec3 :=
  mkvec (vx p + vx q) (vy p + vy q) (vz p + vz q).

Definition vsub (p q : vec3) : vec3 :=
  mkvec (vx p - vx q) (vy p - vy q) (vz p - vz q).

Definition vdivs (p : vec3) (d : float64) : vec3 :=
  mkvec (vx p / d) (vy p / d) (vz p / d).

(** [coordinates.sum(axis=0)] of an array in row-major order (NumPy's
    default): the rows are added one after the other, starting from the
    first row. *)
Definition sum_axis0 (coordinates : list vec3) : vec3 :=
  match coordinates with
  | [] => mkvec 0 0 0
  | p :: rest => fold_left vadd rest p
  end.

(** [coordinates.mean(axis=0)]. *)
Definition mean_axis0 (coordinates : list vec3) : vec3 :=
  vdivs (sum_axis0 coordinates) (of_nat (List.length coordinates)).

Definition translate (coordinates : list vec3) : list vec3 :=
  let centre := mean_axis0 coordinates in
  map (fun p => vsub p centre) coordinates.

(** ** Test data *)





End Binary64.

(* ================================================================== *)
(** * Ring size outside the supported range *)
(* ================================================================== *)

Lemma size_test_false (N : nat) :
  (N < 5 \/ 20 < N)%nat -> ((4 <? N) && (N <=? 20))%nat = false.
Proof.
  intros H. apply andb_false_iff.
  rewrite Nat.ltb_ge, Nat.leb_gt. lia.
Qed.

Lemma size_test_true (N : nat) :
  (5 <= N <= 20)%nat -> ((4 <? N) && (N <=? 20))%nat = true.
Proof.
  intros H. apply andb_true_iff.
  rewrite Nat.ltb_lt, Nat.leb_le. lia.
Qed.

Lemma pucker_coords_bad_size (coordinates : list vec3) :
  (length coordinates < 5 \/ 20 < length coordinates)%nat ->
  get_ring_pucker_coords coordinates = Raise "UnboundLocalError".
Proof.
  intros H. unfold get_ring_pucker_coords. cbv zeta.
  rewrite (size_test_false _ H). reflexivity.
Qed.

(** C2.  A ring of three atoms.  The size test fails, the message is
    printed, and the [return] statement then reads locals that were never
    assigned: the call ends in an [UnboundLocalError], not in an
    [InvalidRingSizeError].  By [pucker_coords_bad_size] the same happens
    for every size outside [5 <= N <= 20]. *)
Lemma ring3_not_InvalidRingSizeError :
  length ring3 = 3%nat
  /\ get_ring_pucker_coords ring3 = Raise "UnboundLocalError"
  /\ get_ring_pucker_coords ring3 <> Raise "InvalidRingSizeError".
Proof.
  split; [reflexivity|].
  rewrite (pucker_coords_bad_size ring3) by (left; simpl; lia).
  split; [reflexivity | discriminate].
Qed.

(* ================================================================== *)
(** * The classifier ignores its amplitude argument *)
(* ================================================================== *)

(** C10.  [conformation_haversine] does not depend on its [amplitude]
    argument: two calls that differ only there return the same label. *)
Theorem conformation_haversine_ignores_amplitude
    (a1 a2 : list float64) (theta_deg phi_deg : float64) :
  conformation_haversine a1 theta_deg phi_deg
  = conformation_haversine a2 theta_deg phi_deg.
Proof. reflexivity. Qed.

(* ================================================================== *)
(** * The spherical-polar reduction and the length of its argument *)
(* ================================================================== *)

Lemma spherical_polar_cases (amplitude angle_deg : list float64) :
  get_spherical_polar_set_n6 amplitude angle_deg =
  match amplitude, angle_deg with
  | q2 :: q3 :: _, phi_deg :: _ =>
      Ok (get_total_puckering_amplitude amplitude,
          degrees (arctan2 q2 q3), phi_deg)
  | _, _ => Raise "IndexError"
  end.
Proof.
  unfold get_spherical_polar_set_n6, get_total_puckering_amplitude.
  destruct amplitude as [|q2 [|q3 rest]]; try reflexivity;
    destruct angle_deg as [|phi_deg more]; reflexivity.
Qed.

(** C5 (as amended).  [get_spherical_polar_set_n6] has no check on the
    number of amplitudes.  With fewer than two amplitudes (or an empty angle
    array) indexing raises [IndexError]; with two or more it
    returns [Q] over all entries and [theta_deg] from the first two. *)
Theorem get_spherical_polar_set_n6_by_length
    (amplitude angle_deg : list float64) :
  get_spherical_polar_set_n6 amplitude angle_deg =
  match amplitude, angle_deg with
  | q2 :: q3 :: _, phi_deg :: _ =>
      Ok (get_total_puckering_amplitude amplitude,
          degrees (arctan2 q2 q3), phi_deg)
  | _, _ => Raise "IndexError"
  end.
Proof. apply spherical_polar_cases. Qed.

(** C5 (as stated) fails: three amplitudes are accepted and a result is
    computed, and a single amplitude ends in an [IndexError]. *)
Lemma three_amplitudes_accepted :
  (exists v,
      get_spherical_polar_set_n6 [Fin 1; Fin 2; Fin 3] [Fin 0] = Ok v)
  /\ get_spherical_polar_set_n6 [Fin 1; Fin 2; Fin 3] [Fin 0]
     <> Raise "UnsupportedRingSizeError"
  /\ get_spherical_polar_set_n6 [Fin 1] [Fin 0]
     <> Raise "UnsupportedRingSizeError".
Proof.
  rewrite !spherical_polar_cases.
  split; [eexists; reflexivity | split; discriminate].
Qed.

(* ================================================================== *)
(** * Shapes of the arrays returned by [get_ring_pucker_coords] *)
(* ================================================================== *)

Lemma zip_with_length f xs ys :
  length xs = length ys -> length (zip_with f xs ys) = length xs.
Proof.
  intros H. unfold zip_with.
  rewrite length_map, length_combine, <- H. apply Nat.min_id.
Qed.

Lemma broadcast2_same_length f xs ys :
  length xs = length ys -> broadcast2 f xs ys = Ok (zip_with f xs ys).
Proof.
  intros H. unfold broadcast2.
  rewrite H, Nat.eqb_refl. reflexivity.
Qed.

(** Broadcasting succeeds when each side has the full length [L >= 1] or
    length one; the result has the larger of the two lengths. *)
Lemma broadcast2_shape f xs ys (L : nat) :
  (1 <= L)%nat ->
  (length xs = L \/ length xs = 1%nat) ->
  (length ys = L \/ length ys = 1%nat) ->
  exists r, broadcast2 f xs ys = Ok r
            /\ length r = Nat.max (length xs) (length ys).
Proof.
  intros HL Hx Hy. unfold broadcast2.
  destruct (Nat.eqb_spec (length xs) (length ys)) as [E|E].
  - eexists; split; [reflexivity|].
    rewrite zip_with_length by assumption. rewrite <- E. symmetry. apply Nat.max_id.
  - destruct xs as [|x [|x' xs]].
    + simpl in Hx. lia.
    + eexists; split; [reflexivity|]. rewrite length_map. simpl in *.
      destruct ys; simpl in *; lia.
    + destruct ys as [|y [|y' ys]].
      * simpl in Hy. lia.
      * eexists; split; [reflexivity|]. rewrite length_map. simpl. lia.
      * simpl in *. lia.
Qed.

Lemma qcos_of_length N z m : length (qcos_of N z m) = length m.
Proof. unfold qcos_of, cos_component. now rewrite !length_map. Qed.

Lemma qsin_of_length N z m : length (qsin_of N z m) = length m.
Proof. unfold qsin_of, sin_component. now rewrite !length_map. Qed.

Lemma range_length a b : length (range a b) = (b - a)%nat.
Proof. unfold range. apply length_seq. Qed.

Lemma fix_zero_length x : length (fix_zero x) = length x \/ fix_zero x = [Fin 0].
Proof. unfold fix_zero. destruct (allclose0 rtol atol x); auto. Qed.

(** The even branch, with the broadcasts resolved. *)
Lemma pucker_coords_even (coordinates : list vec3) :
  even_ring coordinates ->
  let N := length coordinates in
  let z := displacement coordinates in
  let m := range 2 (N / 2) in
  let qcos := qcos_of N z m in
  let qsin := qsin_of N z m in
  get_ring_pucker_coords coordinates =
  Ok (map sqrt (zip_with add (map square qsin) (map square qcos))
        ++ [unpaired_term N z],
      map degrees (map wrap_angle (zip_with arctan2 qsin qcos)),
      map wrap_angle (zip_with arctan2 qsin qcos)).
Proof.
  intros [Hr He]. cbv zeta. unfold get_ring_pucker_coords. cbv zeta.
  rewrite (size_test_true _ Hr), He. cbn [Nat.eqb].
  fold (qcos_of (length coordinates) (displacement coordinates)
          (range 2 (length coordinates / 2))).
  fold (qsin_of (length coordinates) (displacement coordinates)
          (range 2 (length coordinates / 2))).
  rewrite !broadcast2_same_length
    by (rewrite ?length_map, qsin_of_length, qcos_of_length; reflexivity).
  reflexivity.
Qed.

Lemma pucker_coords_even_shape (coordinates : list vec3) :
  even_ring coordinates ->
  exists amplitude angle_deg angle_rad,
    get_ring_pucker_coords coordinates = Ok (amplitude, angle_deg, angle_rad)
    /\ length amplitude = (length coordinates / 2 - 1)%nat
    /\ length angle_deg = (length coordinates / 2 - 2)%nat
    /\ length angle_rad = (length coordinates / 2 - 2)%nat.
Proof.
  intros H. pose proof (pucker_coords_even _ H) as E. cbv zeta in E.
  destruct H as [Hr He].
  do 3 eexists. split; [exact E|].
  rewrite length_app, !length_map, !zip_with_length
    by (rewrite ?length_map, qsin_of_length, qcos_of_length; reflexivity).
  rewrite ?length_map, qsin_of_length, range_length. simpl length.
  assert (6 <= length coordinates)%nat.
  { destruct (Nat.eq_dec (length coordinates) 5) as [E5|]; [|lia].
    rewrite E5 in He. discriminate. }
  assert (3 <= length coordinates / 2)%nat
    by (apply (Nat.Div0.div_le_mono 6 _ 2) in H; exact H).
  lia.
Qed.

Lemma pucker_coords_odd_shape (coordinates : list vec3) :
  odd_ring coordinates ->
  exists amplitude angle_deg angle_rad,
    get_ring_pucker_coords coordinates = Ok (amplitude, angle_deg, angle_rad)
    /\ length amplitude
       = Nat.max (length (fix_zero (odd_qsin coordinates)))
                 (length (fix_zero (odd_qcos coordinates)))
    /\ length angle_deg = length amplitude
    /\ length angle_rad = length amplitude.
Proof.
  intros [Hr Ho]. unfold get_ring_pucker_coords, odd_qsin, odd_qcos. cbv zeta.
  rewrite (size_test_true _ Hr), Ho. cbn [Nat.eqb].
  set (N := length coordinates) in *.
  set (z := displacement coordinates).
  set (m := range 2 ((N - 1) / 2 + 1)).
  fold (qcos_of N z m). fold (qsin_of N z m).
  set (L := ((N - 1) / 2 - 1)%nat).
  assert (Hm : length m = L) by (unfold m, L; rewrite range_length; lia).
  assert (HL : (1 <= L)%nat).
  { unfold L. assert (2 <= (N - 1) / 2)%nat; [|lia].
    apply (Nat.Div0.div_le_mono 4 (N - 1) 2); lia. }
  assert (Hc : length (fix_zero (qcos_of N z m)) = L
               \/ length (fix_zero (qcos_of N z m)) = 1%nat).
  { destruct (fix_zero_length (qcos_of N z m)) as [E|E]; rewrite E.
    - left. now rewrite qcos_of_length.
    - right. reflexivity. }
  assert (Hs : length (fix_zero (qsin_of N z m)) = L
               \/ length (fix_zero (qsin_of N z m)) = 1%nat).
  { destruct (fix_zero_length (qsin_of N z m)) as [E|E]; rewrite E.
    - left. now rewrite qsin_of_length.
    - right. reflexivity. }
  destruct (broadcast2_shape add
              (map square (fix_zero (qsin_of N z m)))
              (map square (fix_zero (qcos_of N z m))) L HL)
    as (s & Es & Ls); rewrite ?length_map; try assumption.
  destruct (broadcast2_shape arctan2
              (fix_zero (qsin_of N z m)) (fix_zero (qcos_of N z m)) L HL)
    as (a & Ea & La); try assumption.
  rewrite Es, Ea. cbn [bind].
  do 3 eexists. split; [reflexivity|].
  rewrite !length_map, Ls, La, !length_map. lia.
Qed.

(** The two component arrays of an odd ring have [(N - 1) / 2 - 1]
    entries, one for each [k = 2 .. (N - 1) / 2]. *)
Lemma odd_components_length (coordinates : list vec3) :
  length (odd_qsin coordinates) = ((length coordinates - 1) / 2 - 1)%nat
  /\ length (odd_qcos coordinates) = ((length coordinates - 1) / 2 - 1)%nat.
Proof.
  unfold odd_qsin, odd_qcos. cbv zeta.
  rewrite qsin_of_length, qcos_of_length, range_length. lia.
Qed.

(** C4 (as amended).  For a ring of supported size the call returns its
    three arrays.  An even ring of [N] atoms has [N/2 - 1] amplitudes (the
    paired terms [k = 2 .. N/2 - 1] and the unpaired [k = N/2] term) and one
    angle fewer.  An odd ring has [(N-1)/2 - 1] amplitudes (the terms
    [k = 2 .. (N-1)/2]) and as many angles, when [fix_zero] leaves at least
    one of the two component arrays as it is, or [N = 5]. *)
Theorem get_ring_pucker_coords_shapes (coordinates : list vec3) :
  (5 <= length coordinates <= 20)%nat ->
  exists amplitude angle_deg angle_rad,
    get_ring_pucker_coords coordinates = Ok (amplitude, angle_deg, angle_rad)
    /\ ((length coordinates mod 2 = 0)%nat ->
        length amplitude = (length coordinates / 2 - 1)%nat
        /\ (length angle_deg + 1)%nat = length amplitude)
    /\ ((length coordinates mod 2 = 1)%nat ->
        length coordinates = 5%nat
        \/ fix_zero (odd_qsin coordinates) = odd_qsin coordinates
        \/ fix_zero (odd_qcos coordinates) = odd_qcos coordinates ->
        length amplitude = ((length coordinates - 1) / 2 - 1)%nat
        /\ length angle_deg = length amplitude).
Proof.
  intros Hr.
  destruct (Nat.eq_dec (length coordinates mod 2) 0) as [He|Ho].
  - destruct (pucker_coords_even_shape coordinates (conj Hr He))
      as (amp & adeg & arad & E & La & Ld & _).
    exists amp, adeg, arad. split; [exact E|]. split.
    + intros _. split; [exact La|].
      rewrite La, Ld.
      assert (6 <= length coordinates)%nat.
      { destruct (Nat.eq_dec (length coordinates) 5) as [E5|]; [|lia].
        rewrite E5 in He. discriminate. }
      assert (3 <= length coordinates / 2)%nat
        by (apply (Nat.Div0.div_le_mono 6 _ 2) in H; exact H).
      lia.
    + intros Ho. rewrite He in Ho. discriminate.
  - assert (Ho' : (length coordinates mod 2 = 1)%nat).
    { pose proof (Nat.mod_upper_bound (length coordinates) 2). lia. }
    destruct (pucker_coords_odd_shape coordinates (conj Hr Ho'))
      as (amp & adeg & arad & E & La & Ld & _).
    exists amp, adeg, arad. split; [exact E|]. split.
    + intros He. contradiction.
    + intros _ Hkeep. split; [|exact Ld].
      rewrite La.
      destruct (odd_components_length coordinates) as [Ls Lc].
      destruct (fix_zero_length (odd_qsin coordinates)) as [Es|Es];
        destruct (fix_zero_length (odd_qcos coordinates)) as [Ec|Ec];
        rewrite ?Es, ?Ec, ?Ls, ?Lc; cbn [length];
        try (assert (1 <= (length coordinates - 1) / 2 - 1)%nat
              by (assert (2 <= (length coordinates - 1) / 2)%nat
                    by (apply (Nat.Div0.div_le_mono 4 _ 2); lia); lia); lia).
      destruct Hkeep as [H5|[Hk|Hk]].
      * rewrite H5. reflexivity.
      * rewrite Hk in Es. rewrite Es in Ls. cbn [length] in Ls. lia.
      * rewrite Hk in Ec. rewrite Ec in Lc. cbn [length] in Lc. lia.
Qed.

Lemma get_ring_pucker_coords_shapes_witness :
  ((5 <= length open_ring6 <= 20)%nat
   /\ exists amplitude angle_deg angle_rad,
       get_ring_pucker_coords open_ring6 = Ok (amplitude, angle_deg, angle_rad)
       /\ length amplitude = 2%nat /\ length angle_deg = 1%nat)
  /\ ((5 <= length ring5 <= 20)%nat
      /\ exists amplitude angle_deg angle_rad,
          get_ring_pucker_coords ring5 = Ok (amplitude, angle_deg, angle_rad)
          /\ length amplitude = 1%nat /\ length angle_deg = 1%nat).
Proof.
  split.
  - split; [simpl; lia|].
    destruct (get_ring_pucker_coords_shapes open_ring6)
      as (amp & adeg & arad & E & He & _); [simpl; lia|].
    exists amp, adeg, arad. split; [exact E|].
    destruct (He eq_refl) as [La Ld]. change (length amp = 2%nat) in La.
    split; [exact La|]. lia.
  - split; [simpl; lia|].
    destruct (get_ring_pucker_coords_shapes ring5)
      as (amp & adeg & arad & E & _ & Ho); [simpl; lia|].
    exists amp, adeg, arad. split; [exact E|].
    destruct (Ho eq_refl (or_introl eq_refl)) as [La Ld].
    change (length amp = 1%nat) in La.
    split; [exact La|]. lia.
Defined.

(** C4 (as stated) fails: a six-membered ring has two amplitudes, not
    [floor(6/2) = 3], and a five-membered ring has one, not
    [floor((5-1)/2) = 2]. *)
Lemma amplitude_count_is_not_half_ring_size :
  (exists amplitude angle_deg angle_rad,
      get_ring_pucker_coords open_ring6 = Ok (amplitude, angle_deg, angle_rad)
      /\ length amplitude <> (length open_ring6 / 2)%nat)
  /\ (exists amplitude angle_deg angle_rad,
      get_ring_pucker_coords ring5 = Ok (amplitude, angle_deg, angle_rad)
      /\ length amplitude <> ((length ring5 - 1) / 2)%nat).
Proof.
  split.
  - destruct (pucker_coords_even_shape open_ring6)
      as (amp & adeg & arad & E & La & _).
    { split; [simpl; lia | reflexivity]. }
    exists amp, adeg, arad. split; [exact E|].
    rewrite La. simpl. lia.
  - destruct (pucker_coords_odd_shape ring5)
      as (amp & adeg & arad & E & La & _).
    { split; [simpl; lia | reflexivity]. }
    exists amp, adeg, arad. split; [exact E|].
    destruct (odd_components_length ring5) as [Ls Lc].
    change (((length ring5 - 1) / 2 - 1)%nat) with 1%nat in Ls, Lc.
    change (((length ring5 - 1) / 2)%nat) with 2%nat.
    destruct (fix_zero_length (odd_qsin ring5)) as [Es|Es];
      destruct (fix_zero_length (odd_qcos ring5)) as [Ec|Ec];
      rewrite ?Es, ?Ec, ?Ls, ?Lc in La; cbn [length Nat.max] in La; lia.
Qed.

(* ================================================================== *)
(** * Arithmetic on finite numbers *)
(* ================================================================== *)

Lemma is_finite_inv (x : float64) : is_finite x -> exists r, x = Fin r.
Proof. destruct x; simpl; try contradiction. eauto. Qed.

Lemma div_Fin_nonzero (a b : R) : b <> 0 -> div (Fin a) (Fin b) = Fin (a / b).
Proof.
  intros H. unfold div. destruct (Req_dec_T b 0); [contradiction | reflexivity].
Qed.

Lemma div_zero_zero : div (Fin 0) (Fin 0) = NaN.
Proof.
  unfold div. destruct (Req_dec_T 0 0) as [_|H]; [|now elim H].
  unfold by_sign. destruct (Rlt_dec 0 0); [lra | reflexivity].
Qed.

Lemma sqrt_Fin (a : R) : 0 <= a -> sqrt (Fin a) = Fin (R_sqrt.sqrt a).
Proof.
  intros H. unfold sqrt. destruct (Rlt_dec a 0); [lra | reflexivity].
Qed.

Lemma lt_Fin_true (a b : R) : a < b -> lt (Fin a) (Fin b) = true.
Proof. intros H. unfold lt. destruct (Rlt_dec a b); [reflexivity | lra]. Qed.

Lemma lt_Fin_false (a b : R) : b <= a -> lt (Fin a) (Fin b) = false.
Proof. intros H. unfold lt. destruct (Rlt_dec a b); [lra | reflexivity]. Qed.

Lemma plane_angle_Fin (N j : nat) :
  (N <> 0)%nat -> plane_angle N j = Fin (2 * PI * INR j / INR N).
Proof.
  intros H. unfold plane_angle, pi, of_nat. cbn [mul].
  apply div_Fin_nonzero. now apply not_0_INR.
Qed.

Lemma pt_eq (a b c a' b' c' : R) :
  a = a' -> b = b' -> c = c' -> pt a b c = pt a' b' c'.
Proof. intros -> -> ->. reflexivity. Qed.

Lemma cross_pt (a b c d e f : R) :
  cross (pt a b c) (pt d e f)
  = pt (b * f - c * e) (c * d - a * f) (a * e - b * d).
Proof. reflexivity. Qed.

Lemma norm_pt (x y z : R) :
  norm (pt x y z) = Fin (R_sqrt.sqrt (x * x + y * y + z * z)).
Proof.
  unfold norm, vdot, pt. cbn [vx vy vz mul add].
  apply sqrt_Fin. nra.
Qed.

(* ================================================================== *)
(** * The unit normal of a degenerate ring *)
(* ================================================================== *)

Lemma get_normal_unfold (coordinates : list vec3) :
  get_normal coordinates =
  vdivs (cross (fst (get_mean_plane coordinates))
               (snd (get_mean_plane coordinates)))
        (plane_cross_norm coordinates).
Proof.
  unfold get_normal, plane_cross_norm.
  destruct (get_mean_plane coordinates) as [R1 R2]. reflexivity.
Qed.

(** A vector whose norm is a finite number has finite components. *)
Lemma norm_Fin_inv (v : vec3) (n : R) :
  norm v = Fin n ->
  exists x y z, v = pt x y z /\ n = R_sqrt.sqrt (x * x + y * y + z * z).
Proof.
  destruct v as [x y z]. unfold norm, vdot. cbn [vx vy vz].
  destruct x as [x| | |], y as [y| | |], z as [z| | |];
    cbn [mul add sqrt]; try discriminate.
  intros H. exists x, y, z. split; [reflexivity|].
  fold (pt x y z) in H.
  destruct (Rlt_dec (x * x + y * y + z * z) 0); [discriminate|].
  now injection H as <-.
Qed.

Lemma vdivs_zero_norm (v : vec3) :
  norm v = Fin 0 -> vdivs v (norm v) = mkvec NaN NaN NaN.
Proof.
  intros H. rewrite H.
  destruct (norm_Fin_inv v 0 H) as (x & y & z & -> & E).
  symmetry in E. apply sqrt_eq_0 in E; [|nra].
  assert (x = 0 /\ y = 0 /\ z = 0) as (-> & -> & ->) by (repeat split; nra).
  unfold vdivs, pt. cbn [vx vy vz]. now rewrite div_zero_zero.
Qed.

Lemma collapsed_ring6_mean_plane :
  get_mean_plane collapsed_ring6 = (pt 0 0 0, pt 0 0 0).
Proof.
  unfold get_mean_plane, collapsed_ring6, weighted_sum, sum_axis0, arange.
  cbn [length seq map combine fold_left fst snd].
  rewrite !plane_angle_Fin by discriminate.
  unfold vzero, pt, vscale, vadd. cbn [vx vy vz sin cos mul add].
  unfold pt. f_equal; f_equal; f_equal; ring.
Qed.

Lemma collapsed_ring6_cross_norm : plane_cross_norm collapsed_ring6 = Fin 0.
Proof.
  unfold plane_cross_norm. rewrite collapsed_ring6_mean_plane.
  cbn [fst snd]. rewrite cross_pt, norm_pt. f_equal.
  replace ((0 * 0 - 0 * 0) * (0 * 0 - 0 * 0) + (0 * 0 - 0 * 0) * (0 * 0 - 0 * 0)
           + (0 * 0 - 0 * 0) * (0 * 0 - 0 * 0)) with 0 by ring.
  apply sqrt_0.
Qed.

(** C3.  Six coincident atoms.  Both plane axes are the zero vector, so
    [|R1 x R2| = 0]; [get_normal] divides by that norm and returns the
    vector [(nan, nan, nan)]: no error is reported, and the result is not
    the unit normal that the docstring announces. *)
Lemma collapsed_ring6_normal_is_nan :
  plane_cross_norm collapsed_ring6 = Fin 0
  /\ get_normal collapsed_ring6 = mkvec NaN NaN NaN.
Proof.
  split; [exact collapsed_ring6_cross_norm|].
  rewrite get_normal_unfold. apply vdivs_zero_norm.
  exact collapsed_ring6_cross_norm.
Qed.

(* ================================================================== *)
(** * The nearest landmark *)
(* ================================================================== *)

Lemma fold_left_flat_map {A B S : Type} (f : S -> B -> S) (g : A -> list B)
    (l : list A) (s : S) :
  fold_left f (flat_map g l) s = fold_left (fun s a => fold_left f (g a) s) l s.
Proof.
  revert s. induction l as [|a l IH]; intros s; simpl; [reflexivity|].
  rewrite fold_left_app. apply IH.
Qed.

Lemma fold_left_map {A B S : Type} (f : S -> B -> S) (g : A -> B)
    (l : list A) (s : S) :
  fold_left f (map g l) s = fold_left (fun s a => f s (g a)) l s.
Proof.
  revert s. induction l as [|a l IH]; intros s; simpl; [reflexivity|].
  apply IH.
Qed.

Lemma fold_left_pointwise {A S : Type} (f g : S -> A -> S)
    (l : list A) (s : S) :
  (forall s a, f s a = g s a) -> fold_left f l s = fold_left g l s.
Proof.
  intros H. revert s.
  induction l as [|a l IH]; intros s; simpl; [reflexivity|].
  rewrite H. apply IH.
Qed.

(** The three nested loops are one pass over [landmark_distances]. *)
Lemma conformation_haversine_as_search
    (amplitude : list float64) (theta_deg phi_deg : float64) :
  conformation_haversine amplitude theta_deg phi_deg
  = snd (fold_left keep_closer (landmark_distances theta_deg phi_deg)
                   (PInf, None)).
Proof.
  unfold conformation_haversine, landmark_distances. cbv zeta.
  rewrite fold_left_flat_map. apply f_equal.
  apply fold_left_pointwise. intros st [c angles].
  rewrite fold_left_flat_map.
  apply fold_left_pointwise. intros st' theta_ref.
  rewrite fold_left_map. reflexivity.
Qed.

Lemma lt_Fin_false_inv (a b : R) : lt (Fin a) (Fin b) = false -> b <= a.
Proof. unfold lt. destruct (Rlt_dec a b); [discriminate | lra]. Qed.

(** The search keeps the first closest entry of a non-empty list of finite
    distances. *)
Lemma search_first_closest (l : list (string * float64)) :
  Forall (fun cd => is_finite (snd cd)) l ->
  l <> [] ->
  exists i c d,
    fold_left keep_closer l (PInf, None) = (Fin d, Some c)
    /\ first_closest l i c (Fin d).
Proof.
  induction l as [|[c dx] l IH] using rev_ind; intros HF Hne.
  - contradiction.
  - clear Hne. rewrite fold_left_app. cbn [fold_left].
    apply Forall_app in HF as [HF Hx].
    apply Forall_inv in Hx. cbn [snd] in Hx.
    destruct dx as [r| | |]; try contradiction. clear Hx.
    assert (Hfin : forall j cd, nth_error l j = Some cd ->
                                exists q, snd cd = Fin q).
    { intros j cd Hj. apply nth_error_In in Hj.
      rewrite Forall_forall in HF. apply is_finite_inv. now apply HF. }
    destruct l as [|y l'].
    + exists 0%nat, c, r. split; [reflexivity|].
      split; [reflexivity|]. split.
      * intros [|j] cd Hj; cbn in Hj.
        -- injection Hj as <-. cbn [snd]. apply lt_Fin_false. lra.
        -- destruct j; discriminate.
      * intros j cd Hj. lia.
    + destruct (IH HF) as (i0 & c0 & r0 & E & Hn & Hmin & Hfirst);
        [discriminate|].
      set (L := y :: l') in *.
      assert (Hi0 : (i0 < length L)%nat)
        by (apply nth_error_Some; rewrite Hn; discriminate).
      rewrite E. unfold keep_closer. cbn [fst snd].
      destruct (Rlt_dec r r0) as [Hlt|Hge].
      * rewrite (lt_Fin_true _ _ Hlt).
        exists (length L), c, r. split; [reflexivity|]. split; [|split].
        -- rewrite nth_error_app2 by lia. now rewrite Nat.sub_diag.
        -- intros j cd Hj.
           destruct (Nat.lt_ge_cases j (length L)) as [Hjl|Hjl].
           ++ rewrite nth_error_app1 in Hj by exact Hjl.
              destruct (Hfin j cd Hj) as [q Eq].
              specialize (Hmin j cd Hj). rewrite Eq in Hmin |- *.
              apply lt_Fin_false_inv in Hmin. apply lt_Fin_false. lra.
           ++ rewrite nth_error_app2 in Hj by exact Hjl.
              destruct (j - length L)%nat as [|k]; cbn in Hj.
              ** injection Hj as <-. cbn [snd]. apply lt_Fin_false. lra.
              ** destruct k; discriminate.
        -- intros j cd Hjl Hj.
           rewrite nth_error_app1 in Hj by exact Hjl.
           destruct (Hfin j cd Hj) as [q Eq].
           specialize (Hmin j cd Hj). rewrite Eq in Hmin |- *.
           apply lt_Fin_false_inv in Hmin. apply lt_Fin_true. lra.
      * rewrite (lt_Fin_false r r0) by lra.
        exists i0, c0, r0. split; [reflexivity|]. split; [|split].
        -- rewrite nth_error_app1 by exact Hi0. exact Hn.
        -- intros j cd Hj.
           destruct (Nat.lt_ge_cases j (length L)) as [Hjl|Hjl].
           ++ rewrite nth_error_app1 in Hj by exact Hjl. eapply Hmin; eauto.
           ++ rewrite nth_error_app2 in Hj by exact Hjl.
              destruct (j - length L)%nat as [|k]; cbn in Hj.
              ** injection Hj as <-. cbn [snd]. apply lt_Fin_false. lra.
              ** destruct k; discriminate.
        -- intros j cd Hjl Hj.
           rewrite nth_error_app1 in Hj by lia. eapply Hfirst; eauto.
Qed.

Lemma mod_Fin (a m : R) : m <> 0 -> mod_ (Fin a) (Fin m) = Fin (Rmod a m).
Proof.
  intros H. unfold mod_.
  destruct (Req_dec_T m 0); [contradiction | reflexivity].
Qed.

Lemma landmark_labels_ok (theta_deg phi_deg : float64) :
  map fst (landmark_distances theta_deg phi_deg) = landmark_labels.
Proof.
  cbv [landmark_distances flat_map map conformations refs_rad theta phi
       app fst].
  reflexivity.
Qed.

Lemma family_names_eq :
  family_names
  = ["Chair (C)"; "Boat (B)"; "Twist-Boat (TB)"; "Half-Chair (HC)";
     "Half-Boat (HB)"]%string.
Proof. reflexivity. Qed.

Lemma landmark_ranks :
  map family_rank landmark_labels
  = [0; 0; 1; 1; 1; 1; 1; 1; 2; 2; 2; 2; 2; 2; 3; 3; 4; 4]%nat.
Proof. vm_compute. reflexivity. Qed.

Lemma landmark_labels_are_families (c : string) :
  In c landmark_labels -> In c family_names.
Proof.
  rewrite family_names_eq. unfold landmark_labels. cbn [In].
  intros H. repeat (destruct H as [<-|H]; [tauto|]). contradiction.
Qed.

Lemma refs_rad_finite (entry : option (list Z)) (x : float64) :
  is_finite x -> Forall is_finite (refs_rad entry x).
Proof.
  intros Hx. unfold refs_rad. apply Forall_map.
  destruct entry as [l|].
  - apply Forall_map. apply Forall_forall. intros z _. exact I.
  - constructor; [|constructor].
    destruct x; try contradiction. exact I.
Qed.

Lemma landmark_distance_finite (lat1 lon1 theta_ref phi_ref : float64) :
  is_finite lat1 -> is_finite lon1 ->
  is_finite theta_ref -> is_finite phi_ref ->
  is_finite (landmark_distance lat1 lon1 theta_ref phi_ref).
Proof.
  destruct lat1 as [a| | |], lon1 as [b| | |], theta_ref as [t| | |],
    phi_ref as [p| | |]; try contradiction.
  intros _ _ _ _.
  unfold landmark_distance, norm2, square, deg2rad, degrees, sub.
  cbn [mul add neg].
  match goal with
  | |- is_finite (sqrt (Fin (?x * ?x + ?y * ?y))) =>
      generalize x y; intros u v
  end.
  rewrite sqrt_Fin by nra. exact I.
Qed.

Lemma landmark_distances_finite (theta_deg phi_deg : R) :
  Forall (fun cd => is_finite (snd cd))
         (landmark_distances (Fin theta_deg) (Fin phi_deg)).
Proof.
  unfold landmark_distances. cbv zeta.
  rewrite (mod_Fin theta_deg 180), (mod_Fin phi_deg 360) by lra.
  apply Forall_flat_map. apply Forall_forall. intros [c angles] _.
  apply Forall_flat_map. apply Forall_forall. intros tr Htr.
  apply Forall_map. apply Forall_forall. intros pr Hpr. cbn [snd].
  pose proof (refs_rad_finite (theta angles) (Fin (Rmod theta_deg 180)) I)
    as Ft.
  pose proof (refs_rad_finite (phi angles) (Fin (Rmod phi_deg 360)) I)
    as Fp.
  rewrite Forall_forall in Ft, Fp.
  apply landmark_distance_finite; try exact I; auto.
Qed.

Lemma sorted_nth_error (l : list nat) (i j a b : nat) :
  StronglySorted le l -> (i <= j)%nat ->
  nth_error l i = Some a -> nth_error l j = Some b -> (a <= b)%nat.
Proof.
  intros Hs. revert i j.
  induction Hs as [|x l Hs IH Hx]; intros i j Hij Hi Hj.
  - destruct i; discriminate.
  - destruct i as [|i], j as [|j]; cbn in Hi, Hj.
    + injection Hi as <-. injection Hj as <-. lia.
    + injection Hi as <-. apply nth_error_In in Hj.
      rewrite Forall_forall in Hx. now apply Hx.
    + lia.
    + apply (IH i j); [lia | assumption | assumption].
Qed.

(* ================================================================== *)
(** * Centring a ring *)
(* ================================================================== *)

Lemma vfinite_pt (p : vec3) :
  vfinite p -> p = pt (to_R (vx p)) (to_R (vy p)) (to_R (vz p)).
Proof.
  destruct p as [x y z]. unfold vfinite. cbn [vx vy vz].
  intros (Hx & Hy & Hz).
  destruct x, y, z; try contradiction. reflexivity.
Qed.

Lemma axis_length f coordinates : length (axis f coordinates) = length coordinates.
Proof. unfold axis. apply length_map. Qed.

Lemma sum_axis0_from (coordinates : list vec3) (a b c : R) :
  ring_finite coordinates ->
  fold_left vadd coordinates (pt a b c)
  = pt (a + Rsum (axis vx coordinates))
       (b + Rsum (axis vy coordinates))
       (c + Rsum (axis vz coordinates)).
Proof.
  intros HF. revert a b c.
  induction HF as [|p l Hp HF IH]; intros a b c.
  - cbn [fold_left axis map Rsum fold_right]. apply pt_eq; ring.
  - cbn [fold_left]. rewrite (vfinite_pt p Hp) at 1.
    change (vadd (pt a b c)
                 (pt (to_R (vx p)) (to_R (vy p)) (to_R (vz p))))
      with (pt (a + to_R (vx p)) (b + to_R (vy p)) (c + to_R (vz p))).
    rewrite IH. unfold Rsum, axis. cbn [map fold_right].
    apply pt_eq; ring.
Qed.

Lemma mean_axis0_finite (coordinates : list vec3) :
  coordinates <> [] -> ring_finite coordinates ->
  mean_axis0 coordinates
  = pt (Rmean (axis vx coordinates)) (Rmean (axis vy coordinates))
       (Rmean (axis vz coordinates)).
Proof.
  intros Hne HF. unfold mean_axis0, sum_axis0, vzero.
  change (mkvec (Fin 0) (Fin 0) (Fin 0)) with (pt 0 0 0).
  rewrite (sum_axis0_from _ 0 0 0 HF).
  assert (Hn : INR (length coordinates) <> 0).
  { apply not_0_INR. destruct coordinates; [contradiction | discriminate]. }
  unfold vdivs, pt, of_nat. cbn [vx vy vz].
  rewrite !div_Fin_nonzero by exact Hn.
  unfold Rmean. rewrite !axis_length.
  apply pt_eq; f_equal; ring.
Qed.

Lemma translate_finite (coordinates : list vec3) :
  coordinates <> [] -> ring_finite coordinates ->
  translate coordinates
  = map (fun p => pt (to_R (vx p) - Rmean (axis vx coordinates))
                     (to_R (vy p) - Rmean (axis vy coordinates))
                     (to_R (vz p) - Rmean (axis vz coordinates)))
        coordinates.
Proof.
  intros Hne HF. unfold translate.
  rewrite (mean_axis0_finite _ Hne HF).
  apply map_ext_in. intros p Hp.
  unfold ring_finite in HF. rewrite Forall_forall in HF.
  rewrite (vfinite_pt p (HF p Hp)) at 1. reflexivity.
Qed.

(* ================================================================== *)
(** * A degenerate ring: [nan] all the way *)
(* ================================================================== *)

Lemma collapsed_ring6_get_normal :
  get_normal collapsed_ring6 = mkvec NaN NaN NaN.
Proof.
  rewrite get_normal_unfold. apply vdivs_zero_norm.
  exact collapsed_ring6_cross_norm.
Qed.

Lemma collapsed_ring6_displacement :
  displacement collapsed_ring6 = [NaN; NaN; NaN; NaN; NaN; NaN].
Proof.
  unfold displacement. cbv zeta. rewrite collapsed_ring6_get_normal.
  unfold collapsed_ring6, pt, vdot. cbn [map vx vy vz mul add]. reflexivity.
Qed.

Lemma mul_NaN_r (x : float64) : mul x NaN = NaN.
Proof. destruct x; reflexivity. Qed.

Lemma collapsed_ring6_pucker_coords :
  get_ring_pucker_coords collapsed_ring6 = Ok ([NaN; NaN], [NaN], [NaN]).
Proof.
  rewrite pucker_coords_even by (split; [cbn; lia | reflexivity]).
  cbv zeta. rewrite collapsed_ring6_displacement.
  change (length collapsed_ring6) with 6%nat.
  change (range 2 (6 / 2)) with [2%nat].
  unfold qcos_of, qsin_of, cos_component, sin_component, unpaired_term,
    dot, arange, zip_with.
  cbn [seq map combine fold_left fst snd mul add].
  rewrite !mul_NaN_r.
  cbn [square mul add sqrt arctan2 map combine fst snd app].
  unfold wrap_angle, degrees. cbn [lt mul map]. reflexivity.
Qed.

Lemma collapsed_ring6_translate : translate collapsed_ring6 = collapsed_ring6.
Proof.
  rewrite translate_finite by (try discriminate; repeat constructor).
  unfold collapsed_ring6, axis, Rmean, Rsum, pt.
  cbn [map fold_right length vx vy vz to_R].
  repeat (f_equal; try (apply pt_eq; field; apply not_0_INR; discriminate)).
Qed.

Lemma collapsed_ring6_pipeline :
  pucker_pipeline collapsed_ring6
  = Ok (([NaN; NaN], [NaN], [NaN]), (NaN, NaN, NaN)).
Proof.
  unfold pucker_pipeline. cbv zeta.
  rewrite collapsed_ring6_translate, collapsed_ring6_pucker_coords.
  cbn [bind]. rewrite spherical_polar_cases. reflexivity.
Qed.

(** C9.  Six coincident atoms.  The first amplitude is [nan], which is
    not [>= 0] as the docstring of [get_ring_pucker_coords] announces, and
    the [theta_deg] that the pipeline returns is [nan], not a number in
    [[0, 180]]. *)
Lemma collapsed_ring6_theta_is_nan :
  (length collapsed_ring6 = 6)%nat
  /\ get_ring_pucker_coords collapsed_ring6 = Ok ([NaN; NaN], [NaN], [NaN])
  /\ ~ Forall nonneg (removelast [NaN; NaN])
  /\ pucker_pipeline collapsed_ring6
     = Ok (([NaN; NaN], [NaN], [NaN]), (NaN, NaN, NaN))
  /\ ~ (exists theta, NaN = Fin theta /\ 0 <= theta <= 180).
Proof.
  split; [reflexivity|].
  split; [exact collapsed_ring6_pucker_coords|].
  split; [|split; [exact collapsed_ring6_pipeline|]].
  - cbn [removelast]. intros H. apply Forall_inv in H. exact H.
  - intros (theta & E & _). discriminate.
Qed.

(** A [nan] distance never compares below [min_distance]: a list of [nan]
    distances leaves the search state as it is. *)
Lemma keep_closer_nan (l : list (string * float64)) (st : search_state) :
  Forall (fun cd => snd cd = NaN) l -> fold_left keep_closer l st = st.
Proof.
  intros H. revert st.
  induction H as [|[c d] l Hd H IH]; intros st; cbn [fold_left].
  - reflexivity.
  - cbn [snd] in Hd. subst d. unfold keep_closer at 2. cbn [snd lt].
    apply IH.
Qed.

(* ================================================================== *)
(** * The total amplitude and the snap-to-zero rule *)
(* ================================================================== *)



(* ================================================================== *)
(** * Selecting the ring and the errors of [get_pucker_values] *)
(* ================================================================== *)

Lemma get_ring_coord_ok (df : dataframe) (indices : list nat) (rows : dataframe) :
  get_ring_coord df indices = Ok rows
  <-> map (nth_error df) indices = map Some rows.
Proof.
  revert rows. induction indices as [|i rest IH]; intros rows; cbn [get_ring_coord map].
  - split.
    + intros H. injection H as <-. reflexivity.
    + destruct rows; [reflexivity | discriminate].
  - unfold getitem. destruct (nth_error df i) as [row|] eqn:Ei; cbn [bind].
    + destruct (get_ring_coord df rest) as [rows'|e] eqn:Er; cbn [bind].
      * split.
        -- intros H. injection H as <-. cbn [map]. f_equal.
           now apply IH.
        -- destruct rows as [|r rows]; [discriminate|]. cbn [map].
           intros H. injection H as -> H. apply IH in H.
           now injection H as ->.
      * split; [discriminate|].
        destruct rows as [|r rows]; [discriminate|]. cbn [map].
        intros H. injection H as _ H. apply IH in H. discriminate.
    + split; [discriminate|].
      destruct rows as [|r rows]; discriminate.
Qed.

Lemma get_ring_coord_raise (df : dataframe) (indices : list nat) (e : string) :
  get_ring_coord df indices = Raise e
  <-> Exists (fun i => length df <= i)%nat indices /\ e = "IndexError"%string.
Proof.
  revert e. induction indices as [|i rest IH]; intros e; cbn [get_ring_coord].
  - split; [discriminate|]. intros [H _]. inversion H.
  - unfold getitem. destruct (nth_error df i) as [row|] eqn:Ei; cbn [bind].
    + assert (Hi : ~ (length df <= i)%nat).
      { intros H. apply nth_error_None in H. congruence. }
      destruct (get_ring_coord df rest) as [rows'|e'] eqn:Er; cbn [bind].
      * split; [discriminate|]. intros [H ->].
        apply Exists_cons in H as [H|H]; [contradiction|].
        destruct (IH "IndexError"%string) as [_ IH'].
        specialize (IH' (conj H eq_refl)). discriminate.
      * destruct (IH e') as [IH' _]. destruct (IH' eq_refl) as [H ->].
        split.
        -- intros E. injection E as <-. split; [now right | reflexivity].
        -- intros [_ ->]. reflexivity.
    + apply nth_error_None in Ei. split.
      * intros E. injection E as <-. split; [now left | reflexivity].
      * intros [_ ->]. reflexivity.
Qed.

Lemma lookup_ok (d : list (string * list nat)) (key : string) (v : list nat) :
  lookup d key = Ok v -> In (key, v) d.
Proof.
  induction d as [|[k w] d IH]; cbn [lookup]; [discriminate|].
  destruct (String.eqb_spec k key) as [->|Hk].
  - intros H. injection H as ->. now left.
  - intros H. right. now apply IH.
Qed.

Lemma lookup_raise (d : list (string * list nat)) (key : string) :
  ~ In key (map fst d) -> lookup d key = Raise "KeyError".
Proof.
  induction d as [|[k w] d IH]; cbn [lookup map fst In]; [reflexivity|].
  intros H. destruct (String.eqb_spec k key) as [->|Hk].
  - exfalso. apply H. now left.
  - apply IH. intros Hin. apply H. now right.
Qed.

Lemma lookup_known (d : list (string * list nat)) (key : string) :
  In key (map fst d) -> exists v, lookup d key = Ok v.
Proof.
  induction d as [|[k w] d IH]; cbn [lookup map fst In]; [contradiction|].
  intros H. destruct (String.eqb_spec k key) as [->|Hk].
  - eauto.
  - apply IH. destruct H as [H|H]; [contradiction | exact H].
Qed.

Lemma ring_indices_permutations (name : string) (indices : list nat) :
  In (name, indices) ring_indices -> Permutation indices (seq 0 6).
Proof.
  unfold ring_indices. cbn [In].
  intros H.
  repeat (destruct H as [H|H]; [injection H as _ <-|]); try contradiction;
    cbn [seq];
    (apply NoDup_Permutation;
     [ repeat constructor; cbn [In]; lia
     | repeat constructor; cbn [In]; lia
     | intros x; cbn [In]; lia ]).
Qed.

Lemma map_Some_inj {A : Type} (l l' : list A) :
  map Some l = map Some l' -> l = l'.
Proof.
  revert l'. induction l as [|a l IH]; intros [|b l'] H; try discriminate.
  - reflexivity.
  - cbn [map] in H. injection H as -> H. f_equal. now apply IH.
Qed.

Lemma map_nth_error_seq {A : Type} (l : list A) (n : nat) :
  (n <= length l)%nat -> map (nth_error l) (seq 0 n) = map Some (firstn n l).
Proof.
  revert n. induction l as [|a l IH]; intros n Hn.
  - cbn in Hn. assert (n = 0%nat) as -> by lia. reflexivity.
  - destruct n as [|n]; [reflexivity|].
    cbn [seq map nth_error firstn]. f_equal.
    rewrite <- seq_shift, map_map. cbn [nth_error].
    apply IH. cbn in Hn. lia.
Qed.

Lemma known_system_indices (name : string) :
  In name system_names ->
  exists indices, lookup ring_indices name = Ok indices
                  /\ Permutation indices (seq 0 6).
Proof.
  intros H. destruct (lookup_known ring_indices name H) as [idx E].
  exists idx. split; [exact E|].
  apply (ring_indices_permutations name). now apply lookup_ok.
Qed.

Lemma ring_of_six_rows (df : dataframe) (indices : list nat) :
  Permutation indices (seq 0 6) -> (6 <= length df)%nat ->
  exists rows, get_ring_coord df indices = Ok rows
               /\ Permutation rows (firstn 6 df)
               /\ get_ring_coord (firstn 6 df) indices = Ok rows.
Proof.
  intros Hp Hl.
  assert (Hlt : forall i, In i indices -> (i < 6)%nat).
  { intros i Hi. apply (Permutation_in _ Hp) in Hi.
    apply in_seq in Hi. lia. }
  destruct (get_ring_coord df indices) as [rows|e] eqn:E.
  - exists rows. split; [reflexivity|].
    pose proof E as Em. apply get_ring_coord_ok in Em. split.
    + pose proof (Permutation_map (nth_error df) Hp) as Hq.
      rewrite Em, (map_nth_error_seq df 6 Hl) in Hq.
      apply Permutation_map_inv in Hq as (l3 & E3 & P3).
      apply map_Some_inj in E3. subst l3. now symmetry.
    + apply get_ring_coord_ok. rewrite <- Em.
      apply map_ext_in. intros i Hi. rewrite nth_error_firstn.
      destruct (Nat.ltb_spec i 6) as [_|Hge]; [reflexivity|].
      specialize (Hlt i Hi). lia.
  - exfalso. apply get_ring_coord_raise in E as [Hex _].
    apply Exists_exists in Hex as (i & Hi & Hge).
    specialize (Hlt i Hi). lia.
Qed.

Lemma pucker_pipeline_six_shape (ring : list vec3) :
  length ring = 6%nat ->
  exists amplitude angle_deg angle_rad Q theta_deg phi_deg,
    pucker_pipeline ring
    = Ok ((amplitude, angle_deg, angle_rad), (Q, theta_deg, phi_deg))
    /\ length amplitude = 2%nat /\ length angle_deg = 1%nat
    /\ Q = get_total_puckering_amplitude amplitude.
Proof.
  intros H6. unfold pucker_pipeline. cbv zeta.
  assert (Hl : length (translate ring) = 6%nat)
    by (unfold translate; now rewrite length_map).
  destruct (pucker_coords_even_shape (translate ring))
    as (amp & adeg & arad & E & La & Ld & _).
  { unfold even_ring. rewrite Hl. split; [lia | reflexivity]. }
  rewrite Hl in La, Ld. cbn in La, Ld.
  rewrite E. cbn [bind]. rewrite spherical_polar_cases.
  destruct amp as [|q2 [|q3 [|q4 amp]]]; try discriminate.
  destruct adeg as [|phi_deg [|x adeg]]; try discriminate.
  cbn [bind]. do 6 eexists. split; [reflexivity|]. auto.
Qed.

(** X3.  [get_ring_coord] returns the rows at the given positions, in the
    order of the index list (not in ascending order), exactly when every
    index is inside the frame; otherwise it ends in an [IndexError], and in
    no other error. *)
Theorem get_ring_coord_selects_rows (df : dataframe) (indices : list nat) :
  (forall rows, get_ring_coord df indices = Ok rows
                <-> map (nth_error df) indices = map Some rows)
  /\ (forall e, get_ring_coord df indices = Raise e
                <-> Exists (fun i => length df <= i)%nat indices
                    /\ e = "IndexError"%string).
Proof.
  split; [apply get_ring_coord_ok | apply get_ring_coord_raise].
Qed.

(** X4.  [get_pucker_values] ends in a [KeyError] for a system name that is
    not a key of [ring_indices], and in an [IndexError] for a registered
    system whose frame has fewer than six atoms. *)
Theorem get_pucker_values_errors (df : dataframe) (system_name : string) :
  (~ In system_name system_names ->
   get_pucker_values df system_name = Raise "KeyError")
  /\ (In system_name system_names -> (length df < 6)%nat ->
      get_pucker_values df system_name = Raise "IndexError").
Proof.
  unfold get_pucker_values. split.
  - intros H. rewrite lookup_raise by exact H. reflexivity.
  - intros H Hl. destruct (known_system_indices _ H) as (idx & E & Hp).
    rewrite E. cbn [bind].
    assert (Hr : get_ring_coord df idx = Raise "IndexError").
    { apply get_ring_coord_raise. split; [|reflexivity].
      apply Exists_exists. exists 5%nat. split; [|lia].
      apply (Permutation_in _ (Permutation_sym Hp)).
      apply in_seq. lia. }
    rewrite Hr. reflexivity.
Qed.

(** X5.  For a registered system and a frame of at least six atoms
    [get_pucker_values] always returns a record, whatever the coordinates
    are: two amplitudes, one angle, [Q] the total amplitude of the
    amplitudes.  Atoms after the sixth are never read: the record is the one
    computed from the first six rows alone. *)
Theorem get_pucker_values_six_atoms (df : dataframe) (system_name : string) :
  In system_name system_names -> (6 <= length df)%nat ->
  exists pv,
    get_pucker_values df system_name = Ok pv
    /\ length (pv_amplitude pv) = 2%nat
    /\ length (pv_angle_deg pv) = 1%nat
    /\ pv_Q pv = get_total_puckering_amplitude (pv_amplitude pv)
    /\ get_pucker_values (firstn 6 df) system_name = Ok pv.
Proof.
  intros H Hl. unfold get_pucker_values.
  destruct (known_system_indices _ H) as (idx & E & Hp).
  destruct (ring_of_six_rows df idx Hp Hl) as (rows & Er & Pr & Er').
  rewrite E. cbn [bind]. rewrite Er, Er'. cbn [bind].
  assert (H6 : length (map snd rows) = 6%nat).
  { rewrite length_map, (Permutation_length Pr).
    apply firstn_length_le. exact Hl. }
  destruct (pucker_pipeline_six_shape _ H6)
    as (amp & adeg & arad & Q & th & ph & Ep & La & Ld & EQ).
  rewrite Ep. cbn [bind].
  eexists. split; [reflexivity|]. cbn [pv_amplitude pv_angle_deg pv_Q].
  auto.
Qed.

(** X6.  For every registered system the index list is a permutation of
    [0 .. 5]: the ring that is selected consists of the first six atoms of
    the frame, each taken once. *)
Theorem ring_is_first_six_atoms (df : dataframe) (system_name : string) :
  In system_name system_names -> (6 <= length df)%nat ->
  exists indices rows,
    lookup ring_indices system_name = Ok indices
    /\ get_ring_coord df indices = Ok rows
    /\ Permutation rows (firstn 6 df).
Proof.
  intros H Hl. destruct (known_system_indices _ H) as (idx & E & Hp).
  destruct (ring_of_six_rows df idx Hp Hl) as (rows & Er & Pr & _).
  eauto.
Qed.

Lemma unregistered_name : ~ In "cXyz"%string system_names.
Proof.
  cbv [system_names ring_indices map fst In].
  intros H. repeat (destruct H as [H|H]; [discriminate|]). exact H.
Qed.

Lemma registered_name : In "cGlyGly"%string system_names.
Proof. left. reflexivity. Qed.

Lemma get_pucker_values_errors_witness :
  (~ In "cXyz"%string system_names
   /\ get_pucker_values coincident_atoms "cXyz" = Raise "KeyError")
  /\ (In "cGlyGly"%string system_names /\ (length (@nil (string * vec3)) < 6)%nat
      /\ get_pucker_values [] "cGlyGly" = Raise "IndexError").
Proof.
  split.
  - split; [exact unregistered_name|].
    exact (proj1 (get_pucker_values_errors coincident_atoms "cXyz")
             unregistered_name).
  - assert (Hl : (length (@nil (string * vec3)) < 6)%nat) by (cbn; lia).
    split; [exact registered_name|]. split; [exact Hl|].
    exact (proj2 (get_pucker_values_errors [] "cGlyGly")
             registered_name Hl).
Defined.

Lemma get_pucker_values_six_atoms_witness :
  In "cGlyGly"%string system_names /\ (6 <= length coincident_atoms)%nat
  /\ exists pv, get_pucker_values coincident_atoms "cGlyGly" = Ok pv
                /\ length (pv_amplitude pv) = 2%nat
                /\ length (pv_angle_deg pv) = 1%nat.
Proof.
  assert (Hl : (6 <= length coincident_atoms)%nat) by (cbn; lia).
  split; [exact registered_name|]. split; [exact Hl|].
  destruct (get_pucker_values_six_atoms coincident_atoms "cGlyGly"
              registered_name Hl) as (pv & E & La & Ld & _).
  exists pv. auto.
Defined.

Lemma ring_is_first_six_atoms_witness :
  In "cGlyGly"%string system_names /\ (6 <= length coincident_atoms)%nat
  /\ exists indices rows,
      lookup ring_indices "cGlyGly" = Ok indices
      /\ get_ring_coord coincident_atoms indices = Ok rows
      /\ Permutation rows (firstn 6 coincident_atoms).
Proof.
  assert (Hl : (6 <= length coincident_atoms)%nat) by (cbn; lia).
  split; [exact registered_name|]. split; [exact Hl|].
  exact (ring_is_first_six_atoms coincident_atoms "cGlyGly"
           registered_name Hl).
Defined.

(* ================================================================== *)
(** * Reading files, the batch loop and the export *)
(* ================================================================== *)

Lemma split_from_blank (word line : string) :
  blank line ->
  split_from word line
  = match word with EmptyString => [] | _ => [word] end.
Proof.
  unfold blank. revert word.
  induction line as [|c rest IH]; intros word H; cbn [split_from].
  - reflexivity.
  - cbn [list_ascii_of_string] in H. apply Forall_cons_iff in H as [Hc H].
    rewrite Hc. destruct word; rewrite IH by exact H; reflexivity.
Qed.

Lemma split_blank (line : string) : blank line -> split line = [].
Proof. intros H. unfold split. now rewrite split_from_blank. Qed.

Section ParsingFacts.

Variable float_of_string : string -> option float64.

Lemma parse_line_ok (line atom : string) (x y z : float64) :
  parse_line float_of_string line = Ok (atom, mkvec x y z)
  <-> exists sx sy sz extra,
        split line = atom :: sx :: sy :: sz :: extra
        /\ float_of_string sx = Some x
        /\ float_of_string sy = Some y
        /\ float_of_string sz = Some z.
Proof.
  unfold parse_line. cbv zeta.
  destruct (split line) as [|a [|sx [|sy [|sz extra]]]];
    cbn [getitem nth_error bind skipn firstn map].
  - split; [discriminate | intros (? & ? & ? & ? & H & _); discriminate].
  - split; [discriminate | intros (? & ? & ? & ? & H & _); discriminate].
  - split; [destruct (float_of_string sx); discriminate
           | intros (? & ? & ? & ? & H & _); discriminate].
  - split; [destruct (float_of_string sx), (float_of_string sy); discriminate
           | intros (? & ? & ? & ? & H & _); discriminate].
  - split.
    + destruct (float_of_string sx) as [x'|] eqn:Ex; [|discriminate].
      destruct (float_of_string sy) as [y'|] eqn:Ey; [|discriminate].
      destruct (float_of_string sz) as [z'|] eqn:Ez; [|discriminate].
      intros H. injection H as -> -> -> ->.
      exists sx, sy, sz, extra. auto.
    + intros (sx' & sy' & sz' & extra' & H & Ex & Ey & Ez).
      injection H as -> -> -> -> ->. now rewrite Ex, Ey, Ez.
Qed.

Lemma parse_line_raise (line e : string) :
  parse_line float_of_string line = Raise e ->
  (split line = [] /\ e = "IndexError"%string)
  \/ (split line <> [] /\ e = "ValueError"%string).
Proof.
  unfold parse_line. cbv zeta.
  destruct (split line) as [|a rest]; cbn [getitem nth_error bind].
  - intros H. injection H as <-. left. auto.
  - intros H. right. split; [discriminate|].
    destruct (map float_of_string (firstn 3 (skipn 1 (a :: rest))))
      as [|[x|] [|[y|] [|[z|] [|w l]]]]; try discriminate;
      now injection H as <-.
Qed.

Lemma parse_line_blank (line : string) :
  blank line -> parse_line float_of_string line = Raise "IndexError".
Proof.
  intros H. unfold parse_line. cbv zeta. now rewrite split_blank.
Qed.

Lemma parse_lines_ok (lines : list string) (df : dataframe) :
  parse_lines float_of_string lines = Ok df
  <-> Forall2 (fun line row => parse_line float_of_string line = Ok row)
              lines df.
Proof.
  revert df. induction lines as [|line rest IH]; intros df;
    cbn [parse_lines].
  - split.
    + intros H. injection H as <-. constructor.
    + intros H. inversion H. reflexivity.
  - destruct (parse_line float_of_string line) as [row|e] eqn:El;
      cbn [bind].
    + destruct (parse_lines float_of_string rest) as [rows|e] eqn:Er;
        cbn [bind].
      * split.
        -- intros H. injection H as <-. constructor; [exact El|].
           now apply IH.
        -- intros H. inversion H as [|? r ? rs Hr Hrs]; subst.
           rewrite El in Hr. injection Hr as <-.
           apply IH in Hrs. now injection Hrs as <-.
      * split; [discriminate|].
        intros H. inversion H as [|? r ? rs Hr Hrs]; subst.
        apply IH in Hrs. discriminate.
    + split; [discriminate|].
      intros H. inversion H as [|? r ? rs Hr Hrs]; subst.
      rewrite El in Hr. discriminate.
Qed.

Lemma parse_lines_raise (lines : list string) (e : string) :
  parse_lines float_of_string lines = Raise e ->
  exists good line rest rows,
    lines = good ++ line :: rest
    /\ parse_lines float_of_string good = Ok rows
    /\ parse_line float_of_string line = Raise e.
Proof.
  induction lines as [|line rest IH]; cbn [parse_lines]; [discriminate|].
  destruct (parse_line float_of_string line) as [row|e'] eqn:El; cbn [bind].
  - destruct (parse_lines float_of_string rest) as [rows|e'] eqn:Er;
      cbn [bind]; [discriminate|].
    intros H. injection H as ->.
    destruct (IH eq_refl) as (good & l & rest' & rows & -> & Eg & Eb).
    exists (line :: good), l, rest', (row :: rows).
    split; [reflexivity|]. split; [|exact Eb].
    cbn [parse_lines]. now rewrite El, Eg.
  - intros H. injection H as ->.
    exists [], line, rest, []. auto.
Qed.

Lemma parse_lines_first_error (good rest : list string) (line e : string)
    (rows : dataframe) :
  parse_lines float_of_string good = Ok rows ->
  parse_line float_of_string line = Raise e ->
  parse_lines float_of_string (good ++ line :: rest) = Raise e.
Proof.
  revert rows. induction good as [|g good IH]; intros rows Hg Hl.
  - cbn [app parse_lines]. now rewrite Hl.
  - cbn [app parse_lines] in Hg |- *.
    destruct (parse_line float_of_string g) as [row|e'];
      cbn [bind] in Hg |- *; [|discriminate].
    destruct (parse_lines float_of_string good) as [rows'|e'] eqn:Eg;
      cbn [bind] in Hg; [|discriminate].
    rewrite (IH rows' eq_refl Hl). reflexivity.
Qed.

Lemma parse_xyz_to_df_ok (file_lines : list string) (n : nat)
    (df : dataframe) :
  parse_xyz_to_df float_of_string file_lines = Ok (n, df)
  <-> n = length df
      /\ Forall2 (fun line row => parse_line float_of_string line = Ok row)
                 (skipn 2 file_lines) df.
Proof.
  unfold parse_xyz_to_df. cbv zeta.
  destruct (parse_lines float_of_string (skipn 2 file_lines)) as [rows|e]
    eqn:E; cbn [bind].
  - apply parse_lines_ok in E. split.
    + intros H. injection H as <- <-. auto.
    + intros [-> H]. f_equal.
      assert (rows = df); [|now subst].
      clear -E H. revert df H.
      induction E as [|l r ls rs Hr E IH]; intros df H; inversion H; subst.
      * reflexivity.
      * f_equal; [congruence | now apply IH].
  - split; [discriminate|]. intros [_ H]. apply parse_lines_ok in H.
    congruence.
Qed.

Lemma registered_spec (name : string) :
  registered name = true <-> In name system_names.
Proof.
  unfold registered, system_names. rewrite existsb_exists. split.
  - intros (k & Hk & E). apply String.eqb_eq in E. now subst.
  - intros H. exists name. split; [exact H | apply String.eqb_refl].
Qed.

Lemma analyze_file_spec (chir : string) (file : string * list string)
    (r : analysis_result) :
  In r (analyze_file float_of_string chir file)
  <-> chirality r = chir
      /\ system_name r = fst file
      /\ In (fst file) system_names
      /\ exists n df,
          parse_xyz_to_df float_of_string (snd file) = Ok (n, df)
          /\ get_pucker_values df (fst file) = Ok (puckering_values r).
Proof.
  destruct file as [name lines]. cbn [fst snd]. unfold analyze_file.
  destruct (registered name) eqn:Er; cbn [negb].
  - apply registered_spec in Er.
    destruct (parse_xyz_to_df float_of_string lines) as [[n df]|e] eqn:Ep;
      cbn [bind snd].
    + destruct (get_pucker_values df name) as [pv|e] eqn:Eg.
      * cbn [In]. split.
        -- intros [<-|[]]. cbn. repeat split; auto. exists n, df. auto.
        -- intros (Hc & Hs & _ & n' & df' & E1 & E2).
           injection E1 as <- <-. rewrite Eg in E2. injection E2 as E2.
           left. destruct r as [s c p]. cbn in *. now subst.
      * cbn [In]. split; [contradiction|].
        intros (_ & _ & _ & n' & df' & E1 & E2).
        injection E1 as <- <-. rewrite Eg in E2. discriminate.
    + cbn [In]. split; [contradiction|].
      intros (_ & _ & _ & n' & df' & E1 & _). discriminate.
  - cbn [In]. split; [contradiction|].
    intros (_ & _ & Hin & _). apply registered_spec in Hin. congruence.
Qed.

Lemma analyze_system_spec
    (folders : string -> option (list (string * list string)))
    (r : analysis_result) :
  In r (analyze_system float_of_string folders)
  <-> (chirality r = "SS"%string \/ chirality r = "SR"%string)
      /\ In (system_name r) system_names
      /\ exists xyz_files file_lines n df,
          folders (chirality r) = Some xyz_files
          /\ In (system_name r, file_lines) xyz_files
          /\ parse_xyz_to_df float_of_string file_lines = Ok (n, df)
          /\ get_pucker_values df (system_name r) = Ok (puckering_values r).
Proof.
  unfold analyze_system. rewrite in_flat_map. split.
  - intros (chir & Hc & Hin).
    destruct (folders chir) as [files|] eqn:Ef; [|contradiction].
    apply in_flat_map in Hin as ([name lines] & Hf & Hin).
    apply analyze_file_spec in Hin as (E1 & E2 & Hreg & n & df & Ep & Eg).
    cbn [fst snd] in *. subst chir.
    split; [cbn [In] in Hc; intuition auto|].
    rewrite E2. split; [exact Hreg|].
    exists files, lines, n, df. auto.
  - intros (Hc & Hreg & files & lines & n & df & Ef & Hf & Ep & Eg).
    exists (chirality r). split; [cbn [In]; intuition auto|].
    rewrite Ef. apply in_flat_map. exists (system_name r, lines).
    split; [exact Hf|]. apply analyze_file_spec. cbn [fst snd].
    repeat split; auto. exists n, df. auto.
Qed.

(** X14.  For a line of ASCII characters: the line is accepted exactly when
    [line.split()] has at least four fields and [float] reads the second,
    third and fourth; the row is the first field with these three numbers
    and any further fields are ignored.  A line that raises is a
    white-space-only line ([IndexError]) or a line with too few or
    non-numeric fields ([ValueError]). *)
Theorem parse_line_fields (line : string) :
  ascii_only line ->
  (forall atom x y z,
      parse_line float_of_string line = Ok (atom, mkvec x y z)
      <-> exists sx sy sz extra,
            split line = atom :: sx :: sy :: sz :: extra
            /\ float_of_string sx = Some x
            /\ float_of_string sy = Some y
            /\ float_of_string sz = Some z)
  /\ (forall e,
        parse_line float_of_string line = Raise e ->
        (split line = [] /\ e = "IndexError"%string)
        \/ (split line <> [] /\ e = "ValueError"%string)).
Proof.
  intros _.
  split; [intros; apply parse_line_ok | apply parse_line_raise].
Qed.

(** X15.  [parse_xyz_to_df] returns [(n, df)] exactly when each line after
    the first two parses to the row at its position and [n] is the number of
    rows.  The two header lines are never read: [n] is the number of lines
    minus two, whatever count the first line declares.  The only errors are
    [IndexError] and [ValueError]. *)
Theorem parse_xyz_to_df_rows (file_lines : list string) :
  (forall n df,
      parse_xyz_to_df float_of_string file_lines = Ok (n, df)
      <-> n = length df
          /\ Forall2 (fun line row =>
                        parse_line float_of_string line = Ok row)
                     (skipn 2 file_lines) df)
  /\ (forall n df,
        parse_xyz_to_df float_of_string file_lines = Ok (n, df) ->
        n = (length file_lines - 2)%nat)
  /\ (forall e,
        parse_xyz_to_df float_of_string file_lines = Raise e ->
        e = "IndexError"%string \/ e = "ValueError"%string).
Proof.
  split; [intros; apply parse_xyz_to_df_ok|]. split.
  - intros n df H. apply parse_xyz_to_df_ok in H as [-> H].
    apply Forall2_length in H. rewrite <- H. apply length_skipn.
  - intros e. unfold parse_xyz_to_df. cbv zeta.
    destruct (parse_lines float_of_string (skipn 2 file_lines)) as [rows|e']
      eqn:E; cbn [bind]; [discriminate|].
    intros H. injection H as ->.
    apply parse_lines_raise in E as (good & line & rest & rows & _ & _ & El).
    apply parse_line_raise in El as [[_ ->] | [_ ->]]; auto.
Qed.

(** X16.  A white-space-only line after the header, for instance an empty
    last line, makes [parse_xyz_to_df] end in an [IndexError] when the lines
    before it parse. *)
Theorem blank_line_raises_IndexError
    (header1 header2 line : string) (good rest : list string)
    (rows : dataframe) :
  parse_lines float_of_string good = Ok rows ->
  blank line ->
  parse_xyz_to_df float_of_string
    (header1 :: header2 :: good ++ line :: rest)
  = Raise "IndexError".
Proof.
  intros Hg Hb. unfold parse_xyz_to_df. cbv zeta. cbn [skipn].
  rewrite (parse_lines_first_error good rest line "IndexError" rows Hg
             (parse_line_blank line Hb)).
  reflexivity.
Qed.

(** X17.  [analyze_system] returns exactly the results of the files that
    pass: a record is in the list if and only if its chirality is "SS" or
    "SR", its system is a key of [ring_indices], and some file of that
    system in that chirality folder parses and gets through
    [get_pucker_values] with these values.  A file that fails is skipped and
    never keeps another file out of the list. *)
Theorem analyze_system_results
    (folders : string -> option (list (string * list string)))
    (r : analysis_result) :
  In r (analyze_system float_of_string folders)
  <-> (chirality r = "SS"%string \/ chirality r = "SR"%string)
      /\ In (system_name r) system_names
      /\ exists xyz_files file_lines n df,
          folders (chirality r) = Some xyz_files
          /\ In (system_name r, file_lines) xyz_files
          /\ parse_xyz_to_df float_of_string file_lines = Ok (n, df)
          /\ get_pucker_values df (system_name r) = Ok (puckering_values r).
Proof. apply analyze_system_spec. Qed.

End ParsingFacts.

Lemma string_length_append (s t : string) :
  String.length (s ++ t) = (String.length s + String.length t)%nat.
Proof. induction s as [|c s IH]; cbn; [reflexivity | now rewrite IH]. Qed.

Lemma append_suffix_inj (s1 s2 t1 t2 : string) :
  (s1 ++ t1)%string = (s2 ++ t2)%string ->
  String.length t1 = String.length t2 ->
  s1 = s2 /\ t1 = t2.
Proof.
  revert s2. induction s1 as [|c s1 IH]; intros [|d s2] H Hl; cbn in H.
  - auto.
  - exfalso. apply (f_equal String.length) in H. cbn in H.
    rewrite string_length_append in H. lia.
  - exfalso. apply (f_equal String.length) in H. cbn in H.
    rewrite string_length_append in H. lia.
  - injection H as -> H. destruct (IH s2 H Hl) as [-> ->]. auto.
Qed.

Lemma export_key_inj (r1 r2 : analysis_result) :
  String.length (chirality r1) = String.length (chirality r2) ->
  export_key r1 = export_key r2 ->
  system_name r1 = system_name r2 /\ chirality r1 = chirality r2.
Proof.
  intros Hl H. unfold export_key in H.
  apply append_suffix_inj in H as [H1 H2]; [|cbn; now rewrite Hl].
  split; [exact H1|]. now injection H2.
Qed.

Lemma dict_get_set_same {V : Type} (d : list (string * V)) (k : string) (v : V) :
  dict_get (dict_set d k v) k = Some v.
Proof.
  induction d as [|[k' v'] d IH]; cbn [dict_set dict_get].
  - now rewrite String.eqb_refl.
  - destruct (String.eqb k' k) eqn:E; cbn [dict_get]; rewrite E; auto.
Qed.

Lemma dict_get_set_other {V : Type} (d : list (string * V)) (k k0 : string)
    (v : V) :
  k <> k0 -> dict_get (dict_set d k v) k0 = dict_get d k0.
Proof.
  intros Hne. induction d as [|[k' v'] d IH]; cbn [dict_set dict_get].
  - destruct (String.eqb_spec k k0); [contradiction | reflexivity].
  - destruct (String.eqb_spec k' k) as [->|Hk]; cbn [dict_get].
    + destruct (String.eqb_spec k k0); [contradiction | reflexivity].
    + destruct (String.eqb_spec k' k0); [reflexivity | exact IH].
Qed.

Lemma dict_set_keys {V : Type} (d : list (string * V)) (k : string) (v : V) :
  map fst (dict_set d k v)
  = if existsb (String.eqb k) (map fst d) then map fst d
    else map fst d ++ [k].
Proof.
  induction d as [|[k' v'] d IH]; cbn [dict_set map fst existsb app].
  - reflexivity.
  - rewrite (String.eqb_sym k k').
    destruct (String.eqb_spec k' k) as [->|Hk]; cbn [map fst orb].
    + reflexivity.
    + rewrite IH. destruct (existsb (String.eqb k) (map fst d)); reflexivity.
Qed.

Lemma dict_set_nodup {V : Type} (d : list (string * V)) (k : string) (v : V) :
  NoDup (map fst d) -> NoDup (map fst (dict_set d k v)).
Proof.
  intros H. rewrite dict_set_keys.
  destruct (existsb (String.eqb k) (map fst d)) eqn:E; [exact H|].
  apply NoDup_app; [exact H | repeat constructor; intros [] |].
  intros x Hx [->|[]].
  assert (existsb (String.eqb x) (map fst d) = true); [|congruence].
  apply existsb_exists. exists x. split; [exact Hx | apply String.eqb_refl].
Qed.

Lemma export_dict_snoc (results : list analysis_result) (r : analysis_result) :
  export_dict (results ++ [r])
  = dict_set (export_dict results) (export_key r) (export_value r).
Proof. unfold export_dict. now rewrite fold_left_app. Qed.

Lemma export_dict_spec (results : list analysis_result) (k : string) :
  NoDup (map fst (export_dict results))
  /\ (length (export_dict results) <= length results)%nat
  /\ dict_get (export_dict results) k
     = option_map export_value
         (find (fun r => String.eqb (export_key r) k) (rev results)).
Proof.
  induction results as [|r results IH] using rev_ind.
  - cbn. split; [constructor | auto].
  - destruct IH as (Hnd & Hlen & Hget).
    rewrite export_dict_snoc, rev_unit. cbn [find].
    split; [now apply dict_set_nodup|]. split.
    + rewrite <- (length_map fst), dict_set_keys, length_app.
      destruct (existsb _ _); rewrite ?length_app, length_map; cbn; lia.
    + destruct (String.eqb_spec (export_key r) k) as [<-|Hk].
      * now rewrite dict_get_set_same.
      * now rewrite dict_get_set_other.
Qed.

(** X18.  The dictionary built by [save_results] has one entry per key:
    its keys are pairwise distinct, it has no more entries than there are
    results, and the entry under a key holds the values of the last result
    with that key. *)
Theorem export_dict_last_wins (results : list analysis_result) (k : string) :
  NoDup (map fst (export_dict results))
  /\ (length (export_dict results) <= length results)%nat
  /\ dict_get (export_dict results) k
     = option_map export_value
         (find (fun r => String.eqb (export_key r) k) (rev results)).
Proof. apply export_dict_spec. Qed.

Lemma find_exists {A : Type} (f : A -> bool) (l : list A) (x : A) :
  In x l -> f x = true -> exists y, find f l = Some y.
Proof.
  induction l as [|a l IH]; intros Hin Hx; [contradiction|].
  cbn [find]. destruct (f a) eqn:Ea; [eauto|].
  destruct Hin as [->|Hin]; [congruence | now apply IH].
Qed.

(** X19.  Every result of [analyze_system] is found in the exported
    dictionary under its key ["<system>_<chirality>"], with the values of a
    result of the same system and chirality: keys of different systems or
    chiralities never collide. *)
Theorem every_system_is_exported
    (float_of_string : string -> option float64)
    (folders : string -> option (list (string * list string))) :
  let results := analyze_system float_of_string folders in
  Forall (fun r =>
            exists r',
              In r' results
              /\ system_name r' = system_name r
              /\ chirality r' = chirality r
              /\ dict_get (export_dict results) (export_key r)
                 = Some (export_value r'))
         results.
Proof.
  cbv zeta. set (results := analyze_system float_of_string folders).
  apply Forall_forall. intros r Hr.
  destruct (export_dict_spec results (export_key r)) as (_ & _ & Hget).
  destruct (find_exists (fun r0 => String.eqb (export_key r0) (export_key r))
              (rev results) r) as [r' Ef].
  { now apply in_rev in Hr. }
  { apply String.eqb_refl. }
  rewrite Ef in Hget. cbn [option_map] in Hget.
  apply find_some in Ef as [Hin Ek]. apply in_rev in Hin.
  apply String.eqb_eq in Ek.
  exists r'. split; [exact Hin|].
  assert (Hl : String.length (chirality r') = String.length (chirality r)).
  { apply (analyze_system_spec float_of_string folders) in Hr as [[E|E] _];
      apply (analyze_system_spec float_of_string folders) in Hin as [[E'|E'] _];
      rewrite E, E'; reflexivity. }
  destruct (export_key_inj r' r Hl Ek) as [Es Ec]. auto.
Qed.

Lemma blank_line_raises_IndexError_witness :
  parse_lines digit_float ["C 1 0 0"%string] = Ok [("C"%string, pt 1 0 0)]
  /\ blank " "%string
  /\ parse_xyz_to_df digit_float
       ["1"; "title"; "C 1 0 0"; " "]%string
     = Raise "IndexError".
Proof.
  assert (Hg : parse_lines digit_float ["C 1 0 0"%string]
               = Ok [("C"%string, pt 1 0 0)]) by (vm_compute; reflexivity).
  assert (Hb : blank " "%string) by (repeat constructor).
  split; [exact Hg|]. split; [exact Hb|].
  exact (blank_line_raises_IndexError digit_float "1" "title" " "
           ["C 1 0 0"%string] [] _ Hg Hb).
Defined.

Lemma parse_line_fields_witness :
  ascii_only "C 0 1 0 x"%string
  /\ parse_line digit_float "C 0 1 0 x"%string = Ok ("C"%string, pt 0 1 0)
  /\ parse_line digit_float " "%string = Raise "IndexError"
  /\ split " "%string = [].
Proof.
  assert (Ha : ascii_only "C 0 1 0 x"%string) by reflexivity.
  assert (Hb : parse_line digit_float " "%string = Raise "IndexError")
    by reflexivity.
  split; [exact Ha|]. split; [|split; [exact Hb|]].
  - apply (proj1 (parse_line_fields digit_float "C 0 1 0 x"%string Ha)).
    exists "0"%string, "1"%string, "0"%string, ["x"%string].
    repeat split; reflexivity.
  - destruct (proj2 (parse_line_fields digit_float " "%string eq_refl) _ Hb)
      as [[H _]|[_ H]]; [exact H | discriminate].
Defined.

(** ** When the classifier returns no label *)

Lemma add_NaN_r (x : float64) : add x NaN = NaN.
Proof. destruct x; reflexivity. Qed.

Lemma mod_nonfinite (x : float64) (m : R) :
  ~ is_finite x -> mod_ x (Fin m) = NaN.
Proof. destruct x; cbn; intros H; try reflexivity. now elim H. Qed.

Lemma landmark_distance_nan_lat (lon1 theta_ref phi_ref : float64) :
  landmark_distance NaN lon1 theta_ref phi_ref = NaN.
Proof. reflexivity. Qed.

Lemma landmark_distance_nan_lon (lat1 theta_ref phi_ref : float64) :
  landmark_distance lat1 NaN theta_ref phi_ref = NaN.
Proof.
  unfold landmark_distance, norm2, sub. cbv zeta. cbn [add square mul].
  now rewrite add_NaN_r.
Qed.

Lemma finite_angles_classified (amplitude : list float64) (theta_deg phi_deg : R) :
  exists label,
    conformation_haversine amplitude (Fin theta_deg) (Fin phi_deg) = Some label
    /\ In label family_names.
Proof.
  set (L := landmark_distances (Fin theta_deg) (Fin phi_deg)).
  assert (Hne : L <> []).
  { intros E. pose proof (landmark_labels_ok (Fin theta_deg) (Fin phi_deg))
      as Hl. fold L in Hl. rewrite E in Hl. discriminate. }
  destruct (search_first_closest L (landmark_distances_finite _ _) Hne)
    as (i & c & d & E & Hn & _).
  exists c. rewrite conformation_haversine_as_search. fold L. rewrite E.
  split; [reflexivity|].
  apply landmark_labels_are_families.
  rewrite <- (landmark_labels_ok (Fin theta_deg) (Fin phi_deg)). fold L.
  apply nth_error_In in Hn. change c with (fst (c, Fin d)). now apply in_map.
Qed.

Lemma nonfinite_angles_unclassified (amplitude : list float64)
    (theta_deg phi_deg : float64) :
  ~ (is_finite theta_deg /\ is_finite phi_deg) ->
  conformation_haversine amplitude theta_deg phi_deg = None.
Proof.
  intros H. rewrite conformation_haversine_as_search.
  rewrite keep_closer_nan; [reflexivity|].
  unfold landmark_distances. cbv zeta.
  apply Forall_flat_map. apply Forall_forall. intros [c angles] _.
  apply Forall_flat_map. apply Forall_forall. intros tr _.
  apply Forall_map. apply Forall_forall. intros pr _. cbn [snd].
  destruct theta_deg as [t| | |];
    try (rewrite (mod_nonfinite _ 180) by (intros []);
         apply landmark_distance_nan_lat).
  destruct phi_deg as [p| | |];
    try (rewrite (mod_nonfinite _ 360) by (intros []);
         apply landmark_distance_nan_lon).
  exfalso. apply H. split; exact I.
Qed.

(** X20.  For every pair of float64 angles, NaN and the infinities included,
    [conformation_haversine] returns [None] exactly when one of the two
    angles is not a finite number; whenever it returns a label, the label is
    one of the five family names.  The amplitude argument plays no part. *)
Theorem unclassified_iff_not_finite (amplitude : list float64)
    (theta_deg phi_deg : float64) :
  (conformation_haversine amplitude theta_deg phi_deg = None
   <-> ~ (is_finite theta_deg /\ is_finite phi_deg))
  /\ (forall label,
        conformation_haversine amplitude theta_deg phi_deg = Some label ->
        In label
           ["Chair (C)"; "Boat (B)"; "Twist-Boat (TB)"; "Half-Chair (HC)";
            "Half-Boat (HB)"]%string).
Proof.
  split.
  - split; [|apply nonfinite_angles_unclassified].
    intros E [Ht Hp].
    destruct (is_finite_inv _ Ht) as [t ->].
    destruct (is_finite_inv _ Hp) as [p ->].
    destruct (finite_angles_classified amplitude t p) as (l & El & _).
    congruence.
  - intros label E. rewrite <- family_names_eq.
    destruct theta_deg as [t| | |], phi_deg as [p| | |];
      try (rewrite nonfinite_angles_unclassified in E
             by (intros [H1 H2]; contradiction); discriminate).
    destruct (finite_angles_classified amplitude t p) as (l & El & Hin).
    congruence.
Qed.

(* ================================================================== *)
(** * Binary64: magnitudes *)
(* ================================================================== *)

Section Binary64Facts.

Import PrimFloat.
Import Binary64.
Local Open Scope Z_scope.

Lemma below_signed_below K s x : below_signed K s x -> below K x.
Proof. destruct x; simpl; tauto. Qed.

Lemma pow2_pos (n : Z) : 0 <= n -> 0 < 2 ^ n.
Proof. intros. apply Z.pow_pos_nonneg; lia. Qed.

Lemma lt_pow2_exponent (m n : Z) : 0 < m -> m < 2 ^ n -> 0 < n.
Proof.
  intros Hm H. destruct (Z.lt_trichotomy n 0) as [Hn|[Hn|Hn]]; [| |exact Hn].
  - rewrite Z.pow_neg_r in H by exact Hn. lia.
  - subst n. simpl in H. lia.
Qed.

Lemma below_mono K K' x : K <= K' -> below K x -> below K' x.
Proof.
  intros HK. destruct x as [| | |s m e]; simpl; trivial.
  intros H. pose proof (lt_pow2_exponent _ _ (Pos2Z.is_pos m) H).
  eapply Z.lt_le_trans; [exact H|]. apply Z.pow_le_mono_r; lia.
Qed.

Lemma digits2_pos_size p : digits2_pos p = Pos.size p.
Proof. induction p; simpl; congruence. Qed.

Lemma Zdigits2_log2 (m : Z) : 0 < m -> Zdigits2 m = Z.log2 m + 1.
Proof.
  destruct m as [|p|p]; try lia. intros _. simpl Zdigits2.
  rewrite digits2_pos_size.
  destruct p; simpl; rewrite ?Pos2Z.inj_succ; lia.
Qed.

Lemma Zdigits2_nonneg (m : Z) : 0 <= Zdigits2 m.
Proof. destruct m; simpl; lia. Qed.

(** A non-negative [m < 2^n] has at most [n] digits. *)
Lemma Zdigits2_le (m n : Z) : 0 <= m -> 0 <= n -> m < 2 ^ n -> Zdigits2 m <= n.
Proof.
  intros Hm Hn H. destruct (Z.eq_dec m 0) as [->|Hz]; [simpl; lia|].
  rewrite Zdigits2_log2 by lia.
  apply Z.log2_lt_pow2 in H; lia.
Qed.

Lemma shr_1_m mrs : 0 <= shr_m mrs -> shr_m (shr_1 mrs) = Z.div2 (shr_m mrs).
Proof.
  destruct mrs as [m r s]. simpl shr_m at 1 2.
  destruct m as [|[p|p|]|p]; intros H; try reflexivity; lia.
Qed.

Lemma iter_shr_m n : forall mrs, 0 <= shr_m mrs ->
  shr_m (@SpecFloat.iter_pos _ shr_1 n mrs) = Z.shiftr (shr_m mrs) (Zpos n).
Proof.
  induction n as [n IH|n IH|]; intros mrs H; simpl SpecFloat.iter_pos.
  - assert (H1 : 0 <= shr_m (shr_1 mrs)).
    { rewrite shr_1_m by exact H. rewrite Z.div2_spec. apply Z.shiftr_nonneg. exact H. }
    assert (H2 : 0 <= shr_m (@SpecFloat.iter_pos _ shr_1 n (shr_1 mrs))).
    { rewrite IH by exact H1. apply Z.shiftr_nonneg. exact H1. }
    rewrite IH by exact H2. rewrite IH by exact H1.
    rewrite shr_1_m by exact H. rewrite Z.div2_spec.
    rewrite !Z.shiftr_shiftr by lia. f_equal. lia.
  - assert (H2 : 0 <= shr_m (@SpecFloat.iter_pos _ shr_1 n mrs)).
    { rewrite IH by exact H. apply Z.shiftr_nonneg. exact H. }
    rewrite IH by exact H2. rewrite IH by exact H.
    rewrite !Z.shiftr_shiftr by lia. f_equal. lia.
  - rewrite shr_1_m by exact H. apply Z.div2_spec.
Qed.

Lemma shr_record_of_loc_m m l : shr_m (shr_record_of_loc m l) = m.
Proof. destruct l as [|[]]; reflexivity. Qed.

(** What [shr_fexp] does to a non-negative mantissa: the exponent moves up
    to the exponent of the format, the mantissa is shifted right by the
    difference. *)
Lemma shr_fexp_spec (m e : Z) (l : location) :
  0 <= m ->
  exists mrs' e',
    shr_fexp prec emax m e l = (mrs', e')
    /\ e' = Z.max e (fexp prec emax (Zdigits2 m + e))
    /\ shr_m mrs' = Z.shiftr m (e' - e).
Proof.
  intros Hm. unfold shr_fexp, shr.
  destruct (fexp prec emax (Zdigits2 m + e) - e) as [|p|p] eqn:En.
  - do 2 eexists. split; [reflexivity|]. split; [lia|].
    rewrite shr_record_of_loc_m. replace (e - e) with 0 by lia. reflexivity.
  - do 2 eexists. split; [reflexivity|]. split; [lia|].
    rewrite iter_shr_m by (rewrite shr_record_of_loc_m; exact Hm).
    rewrite shr_record_of_loc_m. f_equal. lia.
  - do 2 eexists. split; [reflexivity|]. split; [lia|].
    rewrite shr_record_of_loc_m. replace (e - e) with 0 by lia. reflexivity.
Qed.

Lemma shiftr_below (m k n : Z) :
  0 <= m -> 0 <= k -> 0 <= n -> m < 2 ^ (n + k) -> Z.shiftr m k < 2 ^ n.
Proof.
  intros Hm Hk Hn H. rewrite Z.shiftr_div_pow2 by exact Hk.
  apply Z.div_lt_upper_bound; [apply pow2_pos; exact Hk|].
  rewrite <- Z.pow_add_r by lia. now rewrite Z.add_comm.
Qed.

Lemma round_nearest_even_le (m : Z) (l : location) :
  0 <= m -> m <= round_nearest_even m l <= m + 1.
Proof.
  intros H. destruct l as [|[]]; simpl; try lia.
  destruct (Z.even m); lia.
Qed.

Lemma fexp_eq (e : Z) : fexp prec emax e = Z.max (e - 53) (-1074).
Proof. reflexivity. Qed.

(** Rounding a mantissa below [2^K] gives a number below [2^(K+1)], of the
    same sign: no overflow while [K <= 971]. *)
Lemma binary_round_aux_below (sx : bool) (mx ex : Z) (lx : location) (K : Z) :
  0 <= mx -> ex <= K -> mx < 2 ^ (K - ex) -> -1074 <= K <= 971 ->
  below_signed (K + 1) sx (binary_round_aux prec emax sx mx ex lx).
Proof.
  intros Hm Hex Hlt HK. unfold binary_round_aux.
  destruct (shr_fexp_spec mx ex lx Hm) as (mrs1 & e1 & E1 & He1 & Hm1).
  rewrite E1.
  assert (Hd : Zdigits2 mx <= K - ex) by (apply Zdigits2_le; lia).
  pose proof (Zdigits2_nonneg mx) as Hd0.
  rewrite fexp_eq in He1.
  assert (He1K : ex <= e1 <= K) by lia.
  assert (Hm1pos : 0 <= shr_m mrs1)
    by (rewrite Hm1; apply Z.shiftr_nonneg; exact Hm).
  assert (Hm1lt : shr_m mrs1 < 2 ^ (K - e1)).
  { rewrite Hm1. apply shiftr_below; try lia.
    replace (K - e1 + (e1 - ex)) with (K - ex) by lia. exact Hlt. }
  set (mr := round_nearest_even (shr_m mrs1) (loc_of_shr_record mrs1)).
  pose proof (round_nearest_even_le (shr_m mrs1) (loc_of_shr_record mrs1) Hm1pos)
    as Hr. fold mr in Hr.
  assert (Hmr : mr < 2 ^ (K + 1 - e1)).
  { replace (K + 1 - e1) with (Z.succ (K - e1)) by lia.
    rewrite Z.pow_succ_r by lia.
    pose proof (pow2_pos (K - e1)). lia. }
  destruct (shr_fexp_spec mr e1 loc_Exact) as (mrs2 & e2 & E2 & He2 & Hm2);
    [lia|].
  rewrite E2.
  assert (Hdr : Zdigits2 mr <= K + 1 - e1) by (apply Zdigits2_le; lia).
  pose proof (Zdigits2_nonneg mr) as Hdr0.
  rewrite fexp_eq in He2.
  assert (He2K : e1 <= e2 <= K) by lia.
  assert (Hm2lt : shr_m mrs2 < 2 ^ (K + 1 - e2)).
  { rewrite Hm2. apply shiftr_below; try lia.
    replace (K + 1 - e2 + (e2 - e1)) with (K + 1 - e1) by lia. exact Hmr. }
  assert (Hm2pos : 0 <= shr_m mrs2)
    by (rewrite Hm2; apply Z.shiftr_nonneg; lia).
  destruct (shr_m mrs2) as [|m|m]; [reflexivity| |lia].
  assert (Hle : (e2 <=? emax - prec) = true)
    by (apply Z.leb_le; change (emax - prec) with 971; lia).
  rewrite Hle. split; [reflexivity|exact Hm2lt].
Qed.

Lemma iter_xO (d m : positive) : Zpos (Pos.iter xO m d) = Zpos m * 2 ^ Zpos d.
Proof.
  induction d as [|d IH] using Pos.peano_ind.
  - simpl. lia.
  - rewrite Pos.iter_succ, Pos2Z.inj_xO, IH, Pos2Z.inj_succ, Z.pow_succ_r by lia.
    lia.
Qed.

(** [shl_align] lowers the exponent to [ex'] when that is smaller, and
    keeps the value. *)
Lemma shl_align_spec (mx : positive) (ex ex' : Z) :
  exists mz ez,
    shl_align mx ex ex' = (mz, ez)
    /\ ez = Z.min ex ex'
    /\ Zpos mz = Zpos mx * 2 ^ (ex - ez).
Proof.
  unfold shl_align. destruct (ex' - ex) as [|d|d] eqn:E.
  - exists mx, ex. split; [reflexivity|]. split; [lia|].
    replace (ex - ex) with 0 by lia. simpl. lia.
  - exists mx, ex. split; [reflexivity|]. split; [lia|].
    replace (ex - ex) with 0 by lia. simpl. lia.
  - exists (Pos.iter xO mx d), ex'. split; [reflexivity|]. split; [lia|].
    rewrite iter_xO. f_equal. f_equal. lia.
Qed.

Lemma scaled_below (m K e e' : Z) :
  0 < m -> e' <= e -> m < 2 ^ (K - e) -> m * 2 ^ (e - e') < 2 ^ (K - e').
Proof.
  intros Hm He H. pose proof (lt_pow2_exponent _ _ Hm H).
  replace (K - e') with ((K - e) + (e - e')) by lia.
  rewrite Z.pow_add_r by lia.
  apply Z.mul_lt_mono_pos_r; [apply pow2_pos; lia | exact H].
Qed.

Lemma binary_round_below (sx : bool) (mx : positive) (ex K : Z) :
  Zpos mx < 2 ^ (K - ex) -> -1074 <= K <= 971 ->
  below_signed (K + 1) sx (binary_round prec emax sx mx ex).
Proof.
  intros H HK. unfold binary_round.
  destruct (shl_align_spec mx ex (fexp prec emax (Zpos (digits2_pos mx) + ex)))
    as (mz & ez & E & Hez & Hmz).
  rewrite E.
  pose proof (lt_pow2_exponent _ _ (Pos2Z.is_pos mx) H).
  apply binary_round_aux_below; try lia.
  rewrite Hmz. apply scaled_below; lia.
Qed.

Lemma binary_normalize_below (m e K : Z) (szero : bool) :
  Z.abs m < 2 ^ (K - e) -> -1074 <= K <= 971 ->
  below (K + 1) (binary_normalize prec emax m e szero).
Proof.
  intros H HK. destruct m as [|p|p]; simpl binary_normalize.
  - exact I.
  - eapply below_signed_below. apply binary_round_below; assumption.
  - eapply below_signed_below. apply binary_round_below; assumption.
Qed.

Lemma binary_normalize_below_pos (m e K : Z) :
  0 <= m -> m < 2 ^ (K - e) -> -1074 <= K <= 971 ->
  below_signed (K + 1) false (binary_normalize prec emax m e false).
Proof.
  intros Hm H HK. destruct m as [|p|p]; simpl binary_normalize.
  - reflexivity.
  - apply binary_round_below; assumption.
  - lia.
Qed.

Lemma shl_align_fst (mx : positive) (ex ez : Z) :
  ez <= ex -> Zpos (fst (shl_align mx ex ez)) = Zpos mx * 2 ^ (ex - ez).
Proof.
  intros H. destruct (shl_align_spec mx ex ez) as (mz & e & E & He & Hm).
  rewrite E. cbn [fst]. rewrite Hm. replace e with ez by lia. reflexivity.
Qed.

Lemma aligned_below (mx : positive) (ex ez a K : Z) :
  ez <= ex -> a <= K -> Zpos mx < 2 ^ (a - ex) ->
  0 < Zpos (fst (shl_align mx ex ez)) < 2 ^ (K - ez).
Proof.
  intros He Ha H. split; [lia|].
  rewrite shl_align_fst by exact He.
  pose proof (lt_pow2_exponent _ _ (Pos2Z.is_pos mx) H).
  eapply Z.lt_le_trans; [apply (scaled_below _ a); try lia; exact H|].
  apply Z.pow_le_mono_r; lia.
Qed.

Lemma pow2_double (n : Z) : 0 <= n -> 2 ^ (n + 1) = 2 * 2 ^ n.
Proof. intros. rewrite Z.pow_add_r, Z.pow_1_r by lia. lia. Qed.

(** ** Sums, differences, products *)

Lemma SFadd_below (x y : spec_float) (a b K : Z) :
  below a x -> below b y -> a <= K -> b <= K -> -1074 <= K + 1 <= 971 ->
  below (K + 2) (SFadd prec emax x y).
Proof.
  intros Hx Hy Ha Hb HK.
  destruct x as [sx| | |sx mx ex], y as [sy| | |sy my ey];
    simpl in Hx, Hy; try contradiction.
  - simpl. destruct sx, sy; exact I.
  - simpl. eapply Z.lt_le_trans; [exact Hy|].
    pose proof (lt_pow2_exponent _ _ (Pos2Z.is_pos my) Hy).
    apply Z.pow_le_mono_r; lia.
  - simpl. eapply Z.lt_le_trans; [exact Hx|].
    pose proof (lt_pow2_exponent _ _ (Pos2Z.is_pos mx) Hx).
    apply Z.pow_le_mono_r; lia.
  - unfold SFadd. cbv zeta.
    set (ez := Z.min ex ey).
    pose proof (aligned_below mx ex ez a K ltac:(lia) Ha Hx) as HA.
    pose proof (aligned_below my ey ez b K ltac:(lia) Hb Hy) as HB.
    replace (K + 2) with ((K + 1) + 1) by lia.
    apply binary_normalize_below; [|lia].
    pose proof (lt_pow2_exponent _ _ (proj1 HA) (proj2 HA)).
    replace (K + 1 - ez) with ((K - ez) + 1) by lia.
    rewrite pow2_double by lia.
    unfold cond_Zopp. destruct sx, sy; lia.
Qed.

Lemma SFsub_below (x y : spec_float) (a b K : Z) :
  below a x -> below b y -> a <= K -> b <= K -> -1074 <= K + 1 <= 971 ->
  below (K + 2) (SFsub prec emax x y).
Proof.
  intros Hx Hy Ha Hb HK.
  destruct x as [sx| | |sx mx ex], y as [sy| | |sy my ey];
    simpl in Hx, Hy; try contradiction.
  - simpl. destruct sx, sy; exact I.
  - simpl. eapply Z.lt_le_trans; [exact Hy|].
    pose proof (lt_pow2_exponent _ _ (Pos2Z.is_pos my) Hy).
    apply Z.pow_le_mono_r; lia.
  - simpl. eapply Z.lt_le_trans; [exact Hx|].
    pose proof (lt_pow2_exponent _ _ (Pos2Z.is_pos mx) Hx).
    apply Z.pow_le_mono_r; lia.
  - unfold SFsub. cbv zeta.
    set (ez := Z.min ex ey).
    pose proof (aligned_below mx ex ez a K ltac:(lia) Ha Hx) as HA.
    pose proof (aligned_below my ey ez b K ltac:(lia) Hb Hy) as HB.
    replace (K + 2) with ((K + 1) + 1) by lia.
    apply binary_normalize_below; [|lia].
    pose proof (lt_pow2_exponent _ _ (proj1 HA) (proj2 HA)).
    replace (K + 1 - ez) with ((K - ez) + 1) by lia.
    rewrite pow2_double by lia.
    unfold cond_Zopp. destruct sx, sy; lia.
Qed.

(** The sum of two non-negative numbers is non-negative. *)
Lemma SFadd_below_pos (x y : spec_float) (a b K : Z) :
  below_signed a false x -> below_signed b false y ->
  a <= K -> b <= K -> -1074 <= K + 1 <= 971 ->
  below_signed (K + 2) false (SFadd prec emax x y).
Proof.
  intros Hx Hy Ha Hb HK.
  destruct x as [sx| | |sx mx ex], y as [sy| | |sy my ey];
    simpl in Hx, Hy; try contradiction.
  - subst sx sy. reflexivity.
  - simpl. destruct Hy as [-> Hy]. split; [reflexivity|].
    eapply Z.lt_le_trans; [exact Hy|].
    pose proof (lt_pow2_exponent _ _ (Pos2Z.is_pos my) Hy).
    apply Z.pow_le_mono_r; lia.
  - simpl. destruct Hx as [-> Hx]. split; [reflexivity|].
    eapply Z.lt_le_trans; [exact Hx|].
    pose proof (lt_pow2_exponent _ _ (Pos2Z.is_pos mx) Hx).
    apply Z.pow_le_mono_r; lia.
  - destruct Hx as [-> Hx], Hy as [-> Hy].
    unfold SFadd. cbv zeta.
    set (ez := Z.min ex ey).
    pose proof (aligned_below mx ex ez a K ltac:(lia) Ha Hx) as HA.
    pose proof (aligned_below my ey ez b K ltac:(lia) Hb Hy) as HB.
    replace (K + 2) with ((K + 1) + 1) by lia.
    pose proof (lt_pow2_exponent _ _ (proj1 HA) (proj2 HA)).
    apply binary_normalize_below_pos; unfold cond_Zopp; try lia.
    replace (K + 1 - ez) with ((K - ez) + 1) by lia.
    rewrite pow2_double by lia. lia.
Qed.

Lemma SFmul_below (x y : spec_float) (a b : Z) :
  below a x -> below b y -> -1074 <= a + b <= 971 ->
  below (a + b + 1) (SFmul prec emax x y).
Proof.
  intros Hx Hy HK.
  destruct x as [sx| | |sx mx ex], y as [sy| | |sy my ey];
    simpl in Hx, Hy; try contradiction; simpl SFmul; try exact I.
  eapply below_signed_below.
  pose proof (lt_pow2_exponent _ _ (Pos2Z.is_pos mx) Hx).
  pose proof (lt_pow2_exponent _ _ (Pos2Z.is_pos my) Hy).
  apply binary_round_aux_below; try lia.
  replace (a + b - (ex + ey)) with ((a - ex) + (b - ey)) by lia.
  rewrite Z.pow_add_r, Pos2Z.inj_mul by lia.
  apply Z.mul_lt_mono_nonneg; lia.
Qed.

(** A square is non-negative. *)
Lemma SFmul_square (x : spec_float) (a : Z) :
  below a x -> -1074 <= a + a <= 971 ->
  below_signed (a + a + 1) false (SFmul prec emax x x).
Proof.
  intros Hx HK.
  destruct x as [sx| | |sx mx ex]; simpl in Hx; try contradiction;
    simpl SFmul; rewrite xorb_nilpotent.
  - reflexivity.
  - pose proof (lt_pow2_exponent _ _ (Pos2Z.is_pos mx) Hx).
    apply binary_round_aux_below; try lia.
    replace (a + a - (ex + ex)) with ((a - ex) + (a - ex)) by lia.
    rewrite Z.pow_add_r, Pos2Z.inj_mul by lia.
    apply Z.mul_lt_mono_nonneg; lia.
Qed.

Lemma below_signed_mono K K' s x : K <= K' -> below_signed K s x -> below_signed K' s x.
Proof.
  intros HK. destruct x as [| | |s' m e]; simpl; trivial.
  intros [Hs H]. split; [exact Hs|].
  pose proof (lt_pow2_exponent _ _ (Pos2Z.is_pos m) H).
  eapply Z.lt_le_trans; [exact H|]. apply Z.pow_le_mono_r; lia.
Qed.

(** ** Square roots *)

Lemma sqrt_below (q m J e : Z) :
  0 <= q -> q * q <= m -> m < 2 ^ (2 * (J - e)) -> 0 <= J - e -> q < 2 ^ (J - e).
Proof.
  intros Hq Hqq Hm HJ.
  replace (2 * (J - e)) with ((J - e) + (J - e)) in Hm by lia.
  rewrite Z.pow_add_r in Hm by lia.
  pose proof (pow2_pos (J - e) HJ).
  destruct (Z.lt_ge_cases q (2 ^ (J - e))) as [H1|H1]; [exact H1|]. nia.
Qed.

(** The square root of a non-negative finite number is a non-negative
    finite number. *)
Lemma SFsqrt_below (x : spec_float) (K : Z) :
  below_signed K false x -> K <= 971 ->
  below_signed 972 false (SFsqrt prec emax x).
Proof.
  intros Hx HK. destruct x as [s| | |s mx ex]; simpl in Hx; try contradiction.
  - exact Hx.
  - destruct Hx as [-> Hx]. unfold SFsqrt, SFsqrt_core_binary. cbv zeta.
    set (e' := Z.min (fexp prec emax (Z.div2 (Zdigits2 (Zpos mx) + ex + 1)))
                     (Z.div2 ex)).
    set (s := ex - 2 * e').
    assert (Hs : 0 <= s).
    { unfold s. pose proof (Z.div2_odd ex) as Ho.
      destruct (Z.odd ex); simpl Z.b2z in Ho; lia. }
    set (m' := match s with
               | 0 => Zpos mx
               | Zpos _ => Z.shiftl (Zpos mx) s
               | Zneg _ => 0
               end).
    assert (Hm' : m' = Zpos mx * 2 ^ s).
    { unfold m'. destruct s as [|p|p] eqn:Es.
      - simpl. lia.
      - apply Z.shiftl_mul_pow2. lia.
      - lia. }
    pose proof (lt_pow2_exponent _ _ (Pos2Z.is_pos mx) Hx) as Hpos.
    set (J := Z.max ((K + 1) / 2) (-1074)).
    assert (HJ : K <= 2 * J /\ -1074 <= J <= 971).
    { unfold J. pose proof (Z.div_mod (K + 1) 2 ltac:(lia)).
      pose proof (Z.mod_pos_bound (K + 1) 2 ltac:(lia)). lia. }
    assert (Hm'lt : m' < 2 ^ (2 * (J - e'))).
    { rewrite Hm'. eapply Z.lt_le_trans.
      - apply Z.mul_lt_mono_pos_r; [apply pow2_pos; exact Hs | exact Hx].
      - rewrite <- Z.pow_add_r by lia. apply Z.pow_le_mono_r; lia. }
    pose proof (Z.sqrtrem_spec m' ltac:(rewrite Hm'; pose proof (pow2_pos s Hs); lia))
      as Hq.
    destruct (Z.sqrtrem m') as [q r].
    destruct Hq as [Hq Hr].
    assert (He' : e' < J) by lia.
    apply (below_signed_mono (J + 1)); [lia|].
    apply binary_round_aux_below; try lia.
    apply (sqrt_below q m'); lia.
Qed.

(** ** The same bounds on machine numbers *)

Local Open Scope float_scope.

Lemma Below_mono K K' x : (K <= K')%Z -> Below K x -> Below K' x.
Proof. apply below_mono. Qed.

Lemma add_Below (x y : float) (a b K : Z) :
  Below a x -> Below b y -> (a <= K)%Z -> (b <= K)%Z ->
  (-1074 <= K + 1 <= 971)%Z -> Below (K + 2) (x + y).
Proof. unfold Below. rewrite add_spec. apply SFadd_below. Qed.

Lemma sub_Below (x y : float) (a b K : Z) :
  Below a x -> Below b y -> (a <= K)%Z -> (b <= K)%Z ->
  (-1074 <= K + 1 <= 971)%Z -> Below (K + 2) (x - y).
Proof. unfold Below. rewrite sub_spec. apply SFsub_below. Qed.

Lemma mul_Below (x y : float) (a b : Z) :
  Below a x -> Below b y -> (-1074 <= a + b <= 971)%Z ->
  Below (a + b + 1) (x * y).
Proof. unfold Below. rewrite mul_spec. apply SFmul_below. Qed.

Lemma square_BelowPos (x : float) (a : Z) :
  Below a x -> (-1074 <= a + a <= 971)%Z -> BelowPos (a + a + 1) (x * x).
Proof. unfold Below, BelowPos. rewrite mul_spec. apply SFmul_square. Qed.

Lemma add_BelowPos (x y : float) (a b K : Z) :
  BelowPos a x -> BelowPos b y -> (a <= K)%Z -> (b <= K)%Z ->
  (-1074 <= K + 1 <= 971)%Z -> BelowPos (K + 2) (x + y).
Proof. unfold BelowPos. rewrite add_spec. apply SFadd_below_pos. Qed.

Lemma sqrt_BelowPos (x : float) (K : Z) :
  BelowPos K x -> (K <= 971)%Z -> BelowPos 972 (sqrt x).
Proof. unfold BelowPos. rewrite sqrt_spec. apply SFsqrt_below. Qed.

(** A float is finite when it is neither [nan] nor an infinity. *)
Lemma is_finite_decoded (x : float) :
  is_finite x = true ->
  match Prim2SF x with
  | S754_zero _ | S754_finite _ _ _ => True
  | _ => False
  end.
Proof.
  unfold is_finite, is_nan, is_infinity.
  rewrite !FloatAxioms.eqb_spec, abs_spec.
  replace (Prim2SF infinity) with (S754_infinity false) by reflexivity.
  destruct (Prim2SF x) as [s|[]| |s m e]; try trivial; simpl; discriminate.
Qed.

(** ** The remainder *)

Lemma valid_exponent (x : float) (s : bool) (m : positive) (e : Z) :
  Prim2SF x = S754_finite s m e -> (-1074 <= e <= 971)%Z.
Proof.
  intros E. pose proof (Prim2SF_valid x) as V. rewrite E in V.
  unfold valid_binary, bounded, canonical_mantissa in V.
  apply andb_true_iff in V as [V1 V2].
  apply Z.eqb_eq in V1. apply Z.leb_le in V2.
  rewrite fexp_eq in V1. change (emax - prec)%Z with 971%Z in V2. lia.
Qed.

Lemma SFopp_below K x : below K x -> below K (SFopp x).
Proof. destruct x; simpl; trivial. Qed.

Lemma SF2Prim_Below (s : bool) (m : positive) (e : Z) :
  (-1074 <= e <= 900)%Z -> Below (65 + e) (SF2Prim (S754_finite s m e)).
Proof.
  intros He. unfold SF2Prim. cbv zeta.
  assert (H : Below (65 + e) (Z.ldexp (of_uint63 (Uint63Axioms.of_Z (Zpos m))) e)).
  { unfold Below. rewrite Z_ldexp_spec, of_uint63_spec.
    pose proof (Uint63.to_Z_bounded (Uint63Axioms.of_Z (Zpos m))) as Hb.
    pose proof (binary_normalize_below_pos
                  (Uint63Axioms.to_Z (Uint63Axioms.of_Z (Zpos m))) 0 63
                  ltac:(lia) ltac:(exact (proj2 Hb)) ltac:(lia)) as Hn.
    destruct (binary_normalize prec emax _ 0 false) as [s0| | |s0 m0 e0];
      simpl in Hn; try contradiction; simpl SFldexp.
    - exact I.
    - destruct Hn as [_ Hn]. eapply below_signed_below.
      replace (65 + e)%Z with ((64 + e) + 1)%Z by lia.
      apply binary_round_below; [|lia].
      replace (64 + e - (e0 + e))%Z with (63 + 1 - e0)%Z by lia. exact Hn. }
  destruct s; [|exact H].
  unfold Below. rewrite opp_spec. apply SFopp_below. exact H.
Qed.

Lemma fmod_Below (x y : float) (sy : bool) (my : positive) (ey : Z) :
  is_finite x = true -> Prim2SF y = S754_finite sy my ey -> (ey <= 900)%Z ->
  Below (65 + ey) (fmod x y).
Proof.
  intros Hx Hy Hey. apply is_finite_decoded in Hx.
  unfold fmod. rewrite Hy.
  destruct (Prim2SF x) as [s| | |sx mx ex] eqn:Ex; try contradiction.
  - simpl SFfmod. destruct s; exact I.
  - pose proof (valid_exponent _ _ _ _ Ex) as Hex.
    pose proof (valid_exponent _ _ _ _ Hy) as Hey'.
    unfold SFfmod. cbv zeta.
    destruct (Z.shiftl (Zpos mx) (ex - Z.min ex ey)
              mod Z.shiftl (Zpos my) (ey - Z.min ex ey))%Z as [|r|r].
    + destruct sx; exact I.
    + apply (Below_mono (65 + Z.min ex ey)); [lia|].
      apply SF2Prim_Below. lia.
    + destruct sx; exact I.
Qed.

Lemma zero_Below K : Below K 0.
Proof. exact I. Qed.

Lemma neg_zero_Below K : Below K (-0).
Proof. exact I. Qed.

(** [a % b] for a finite [a] and a finite non-zero [b] is a finite
    number. *)
Lemma mod_Below (a b : float) (sb : bool) (mb : positive) (eb K : Z) :
  is_finite a = true -> Prim2SF b = S754_finite sb mb eb ->
  Below K b -> (65 + eb <= K)%Z -> (eb <= 900)%Z -> (-1074 <= K + 1 <= 971)%Z ->
  Below (K + 2) (mod_ a b).
Proof.
  intros Ha Hb Hbb HK Heb HK'. unfold mod_. cbv zeta.
  pose proof (fmod_Below a b sb mb eb Ha Hb Heb) as Hm.
  assert (Hm2 : Below (K + 2) (fmod a b))
    by (apply (Below_mono (65 + eb)); [lia | exact Hm]).
  destruct (b =? 0); [exact Hm2|].
  destruct (is_nan (fmod a b)); [exact Hm2|].
  destruct (fmod a b =? 0).
  - destruct (b <? 0); [apply neg_zero_Below | apply zero_Below].
  - destruct (xorb (b <? 0) (fmod a b <? 0)); [|exact Hm2].
    apply (add_Below _ _ (65 + eb) K K); try lia; assumption.
Qed.

Lemma mod_180_Below (a : float) : is_finite a = true -> Below 22 (mod_ a 180).
Proof.
  intros Ha.
  apply (mod_Below a 180 false 6333186975989760 (-45) 20 Ha);
    [reflexivity | vm_compute; reflexivity | lia | lia | lia].
Qed.

Lemma mod_360_Below (a : float) : is_finite a = true -> Below 23 (mod_ a 360).
Proof.
  intros Ha.
  apply (mod_Below a 360 false 6333186975989760 (-44) 21 Ha);
    [reflexivity | vm_compute; reflexivity | lia | lia | lia].
Qed.
(* ================================================================== *)
(** * Binary64: order *)
(* ================================================================== *)

Lemma SFcompare_key (x y : spec_float) :
  x <> S754_nan -> y <> S754_nan ->
  (SFcompare x y = Some Lt <-> key_lt (key x) (key y))
  /\ (SFcompare x y = Some Eq <-> key x = key y).
Proof.
  intros Hx Hy. unfold key_lt.
  destruct x as [sx|[]| |[] mx ex], y as [sy|[]| |[] my ey];
    try congruence; simpl;
    try (split; split; intros H; first [discriminate | reflexivity | lia | congruence]).
  - change (Pos.compare_cont Eq mx my) with (Pos.compare mx my).
    destruct (Z.compare_spec ex ey) as [E|E|E];
      [destruct (Pos.compare_spec mx my) as [E'|E'|E']; simpl|..];
      split; split; intros H;
      first [discriminate | reflexivity | lia | congruence
            | injection H; lia | exfalso; lia].
  - change (Pos.compare_cont Eq mx my) with (Pos.compare mx my).
    destruct (Z.compare_spec ex ey) as [E|E|E];
      [destruct (Pos.compare_spec mx my) as [E'|E'|E']; simpl|..];
      split; split; intros H;
      first [discriminate | reflexivity | lia | congruence
            | injection H; lia | exfalso; lia].
Qed.

Lemma ltb_key (x y : float64) :
  Prim2SF x <> S754_nan -> Prim2SF y <> S754_nan ->
  ((x <? y) = true <-> key_lt (key (Prim2SF x)) (key (Prim2SF y))).
Proof.
  intros Hx Hy. rewrite ltb_spec. unfold SFltb.
  destruct (SFcompare_key _ _ Hx Hy) as [H _]. rewrite <- H.
  destruct (SFcompare (Prim2SF x) (Prim2SF y)) as [[]|];
    split; intros E; first [discriminate | reflexivity].
Qed.

Lemma ltb_false_key (x y : float64) :
  Prim2SF x <> S754_nan -> Prim2SF y <> S754_nan ->
  ((x <? y) = false <-> ~ key_lt (key (Prim2SF x)) (key (Prim2SF y))).
Proof.
  intros Hx Hy. rewrite <- (ltb_key x y Hx Hy).
  destruct (x <? y); split; intros H; congruence.
Qed.

Lemma eqb_key (x y : float64) :
  Prim2SF x <> S754_nan -> Prim2SF y <> S754_nan ->
  ((x =? y) = true <-> key (Prim2SF x) = key (Prim2SF y)).
Proof.
  intros Hx Hy. rewrite FloatAxioms.eqb_spec. unfold SFeqb.
  destruct (SFcompare_key _ _ Hx Hy) as [_ H]. rewrite <- H.
  destruct (SFcompare (Prim2SF x) (Prim2SF y)) as [[]|];
    split; intros E; first [discriminate | reflexivity].
Qed.

Lemma BelowPos_not_nan (K : Z) (x : float64) :
  BelowPos K x -> Prim2SF x <> S754_nan.
Proof. unfold BelowPos. intros H E. rewrite E in H. exact H. Qed.

(** A finite number is below [+inf]. *)
Lemma BelowPos_lt_infinity (K : Z) (x : float64) :
  BelowPos K x -> (x <? infinity) = true.
Proof.
  intros H. apply ltb_key; [exact (BelowPos_not_nan _ _ H) | discriminate|].
  unfold BelowPos in H. replace (Prim2SF infinity) with (S754_infinity false) by reflexivity.
  unfold key_lt. destruct (Prim2SF x) as [s|s| |[] m e]; simpl in *; try tauto; lia.
Qed.

Lemma spec_float_eq_nan (x : spec_float) : x = S754_nan \/ x <> S754_nan.
Proof. destruct x; [right|right|left|right]; congruence. Qed.

Lemma ltb_irrefl (x : float64) : (x <? x) = false.
Proof.
  destruct (spec_float_eq_nan (Prim2SF x)) as [E|E].
  - rewrite ltb_spec, E. reflexivity.
  - apply ltb_false_key; try exact E. unfold key_lt. lia.
Qed.

(** From [a < c <= b]: [a < b], and not [b < a]. *)
Lemma ltb_le_trans (a b c : float64) :
  Prim2SF a <> S754_nan -> Prim2SF b <> S754_nan -> Prim2SF c <> S754_nan ->
  (a <? c) = true -> (b <? c) = false ->
  (a <? b) = true /\ (b <? a) = false.
Proof.
  intros Ha Hb Hc H1 H2.
  apply ltb_key in H1; try assumption.
  apply ltb_false_key in H2; try assumption.
  split; [apply ltb_key | apply ltb_false_key]; try assumption;
    unfold key_lt in *; lia.
Qed.

Lemma lt_not_eqb (a b : float64) :
  Prim2SF a <> S754_nan -> Prim2SF b <> S754_nan ->
  (a <? b) = true -> (b =? a) = false.
Proof.
  intros Ha Hb H. apply ltb_key in H; try assumption.
  destruct (b =? a) eqn:E; [|reflexivity].
  apply eqb_key in E; try assumption. unfold key_lt in H. rewrite E in H. lia.
Qed.

(* ================================================================== *)
(** * Binary64: the nearest landmark *)
(* ================================================================== *)

(** The three nested loops are one pass over [landmark_distances]. *)
Lemma binary64_haversine_as_search
    (amplitude : list float64) (theta_deg phi_deg : float64) :
  conformation_haversine amplitude theta_deg phi_deg
  = snd (fold_left keep_closer (landmark_distances theta_deg phi_deg)
                   (infinity, None)).
Proof.
  unfold conformation_haversine, landmark_distances. cbv zeta.
  rewrite fold_left_flat_map. apply f_equal.
  apply fold_left_pointwise. intros st [c angles].
  rewrite fold_left_flat_map.
  apply fold_left_pointwise. intros st' theta_ref.
  rewrite fold_left_map. reflexivity.
Qed.

(** The search keeps the first closest entry of a non-empty list of finite
    distances. *)
Lemma binary64_search_first_closest (l : list (string * float64)) :
  Forall (fun cd => BelowPos 972 (snd cd)) l ->
  l <> [] ->
  exists i c d,
    fold_left keep_closer l (infinity, None) = (d, Some c)
    /\ first_closest l i c d.
Proof.
  induction l as [|[c r] l IH] using rev_ind; intros HF Hne.
  - contradiction.
  - clear Hne. rewrite fold_left_app. cbn [fold_left].
    apply Forall_app in HF as [HF Hx].
    apply Forall_inv in Hx. cbn [snd] in Hx.
    pose proof (BelowPos_not_nan _ _ Hx) as Hr.
    assert (Hfin : forall j cd, nth_error l j = Some cd ->
                                Prim2SF (snd cd) <> S754_nan).
    { intros j cd Hj. apply nth_error_In in Hj.
      rewrite Forall_forall in HF. eapply BelowPos_not_nan. now apply HF. }
    destruct l as [|y l'].
    + exists 0%nat, c, r. cbn [fold_left]. unfold keep_closer. cbn [fst snd].
      rewrite (BelowPos_lt_infinity _ _ Hx).
      split; [reflexivity|]. split; [reflexivity|]. split.
      * intros [|j] cd Hj; cbn in Hj.
        -- injection Hj as <-. cbn [snd]. apply ltb_irrefl.
        -- destruct j; discriminate.
      * intros j cd Hj. lia.
    + destruct (IH HF) as (i0 & c0 & r0 & E & Hn & Hmin & Hfirst);
        [discriminate|].
      set (L := y :: l') in *.
      assert (Hi0 : (i0 < List.length L)%nat)
        by (apply nth_error_Some; rewrite Hn; discriminate).
      pose proof (Hfin i0 _ Hn) as Hr0. cbn [snd] in Hr0.
      rewrite E. unfold keep_closer. cbn [fst snd].
      destruct (r <? r0) eqn:Hlt.
      * exists (List.length L), c, r. split; [reflexivity|]. split; [|split].
        -- rewrite nth_error_app2 by lia. now rewrite Nat.sub_diag.
        -- intros j cd Hj.
           destruct (Nat.lt_ge_cases j (List.length L)) as [Hjl|Hjl].
           ++ rewrite nth_error_app1 in Hj by exact Hjl.
              exact (proj2 (ltb_le_trans r (snd cd) r0 Hr (Hfin j cd Hj) Hr0
                              Hlt (Hmin j cd Hj))).
           ++ rewrite nth_error_app2 in Hj by exact Hjl.
              destruct (j - List.length L)%nat as [|k]; cbn in Hj.
              ** injection Hj as <-. cbn [snd]. apply ltb_irrefl.
              ** destruct k; discriminate.
        -- intros j cd Hjl Hj.
           rewrite nth_error_app1 in Hj by exact Hjl.
           exact (proj1 (ltb_le_trans r (snd cd) r0 Hr (Hfin j cd Hj) Hr0
                           Hlt (Hmin j cd Hj))).
      * exists i0, c0, r0. split; [reflexivity|]. split; [|split].
        -- rewrite nth_error_app1 by exact Hi0. exact Hn.
        -- intros j cd Hj.
           destruct (Nat.lt_ge_cases j (List.length L)) as [Hjl|Hjl].
           ++ rewrite nth_error_app1 in Hj by exact Hjl. eapply Hmin; eauto.
           ++ rewrite nth_error_app2 in Hj by exact Hjl.
              destruct (j - List.length L)%nat as [|k]; cbn in Hj.
              ** injection Hj as <-. cbn [snd]. exact Hlt.
              ** destruct k; discriminate.
        -- intros j cd Hjl Hj.
           rewrite nth_error_app1 in Hj by lia. eapply Hfirst; eauto.
Qed.

Lemma binary64_landmark_labels (theta_deg phi_deg : float64) :
  map fst (landmark_distances theta_deg phi_deg) = landmark_labels.
Proof.
  cbv [landmark_distances flat_map map conformations refs_rad theta phi
       app fst].
  reflexivity.
Qed.

Lemma binary64_landmark_rank_monotone (theta_deg phi_deg : float64)
    (i j : nat) (ci cj : string) (di dj : float64) :
  (i <= j)%nat ->
  nth_error (landmark_distances theta_deg phi_deg) i = Some (ci, di) ->
  nth_error (landmark_distances theta_deg phi_deg) j = Some (cj, dj) ->
  (family_rank ci <= family_rank cj)%nat.
Proof.
  intros Hij Hi Hj.
  apply (map_nth_error (fun cd => family_rank (fst cd))) in Hi, Hj.
  rewrite <- (map_map fst family_rank) in Hi, Hj.
  rewrite binary64_landmark_labels, landmark_ranks in Hi, Hj.
  cbn [fst] in Hi, Hj.
  eapply sorted_nth_error; [| exact Hij | exact Hi | exact Hj].
  repeat (constructor; [|repeat constructor; lia]). constructor.
Qed.

Lemma deg2rad_Below (x : float64) (K : Z) :
  Below K x -> (-1000 <= K <= 900)%Z -> Below (K - 4) (deg2rad x).
Proof.
  intros H HK. unfold deg2rad.
  replace (K - 4)%Z with (K + (-5) + 1)%Z by lia.
  apply mul_Below; [exact H | vm_compute; reflexivity | lia].
Qed.

Lemma degrees_Below (x : float64) (K : Z) :
  Below K x -> (-1000 <= K <= 900)%Z -> Below (K + 7) (degrees x).
Proof.
  intros H HK. unfold degrees.
  replace (K + 7)%Z with (K + 6 + 1)%Z by lia.
  apply mul_Below; [exact H | vm_compute; reflexivity | lia].
Qed.

(** The distance from a bounded query to a bounded reference is a finite,
    non-negative number. *)
Lemma landmark_distance_BelowPos (lat1 lon1 theta_ref phi_ref : float64) :
  Below 20 lat1 -> Below 20 lon1 -> Below 20 theta_ref -> Below 20 phi_ref ->
  BelowPos 972 (landmark_distance lat1 lon1 theta_ref phi_ref).
Proof.
  intros Hlat Hlon Ht Hp. unfold landmark_distance, norm2. cbv zeta.
  assert (Hlat2 : Below 25 (deg2rad (90 - degrees theta_ref))).
  { apply (deg2rad_Below _ 29); [|lia].
    apply (sub_Below _ _ 7 27 27); try lia.
    - vm_compute. reflexivity.
    - apply (degrees_Below _ 20); [exact Ht | lia]. }
  assert (Hlon2 : Below 23 (deg2rad (degrees phi_ref))).
  { apply (deg2rad_Below _ 27); [|lia].
    apply (degrees_Below _ 20); [exact Hp | lia]. }
  apply (sqrt_BelowPos _ 57); [|lia].
  apply (add_BelowPos _ _ 55 51 55); try lia.
  - apply (square_BelowPos _ 27); [|lia].
    apply (sub_Below _ _ 20 25 25); try lia; assumption.
  - apply (square_BelowPos _ 25); [|lia].
    apply (sub_Below _ _ 20 23 23); try lia; assumption.
Qed.

(** For finite angles all eighteen distances are finite numbers. *)
Lemma binary64_landmark_distances_finite (theta_deg phi_deg : float64) :
  is_finite theta_deg = true -> is_finite phi_deg = true ->
  Forall (fun cd => BelowPos 972 (snd cd))
         (landmark_distances theta_deg phi_deg).
Proof.
  intros Ht Hp. unfold landmark_distances. cbv zeta.
  pose proof (mod_180_Below theta_deg Ht) as Ht'.
  pose proof (mod_360_Below phi_deg Hp) as Hp'.
  set (t := mod_ theta_deg 180) in *.
  set (p := mod_ phi_deg 360) in *.
  assert (Hlat : Below 20 (deg2rad (90 - t))).
  { apply (deg2rad_Below _ 24); [|lia].
    apply (sub_Below _ _ 7 22 22); try lia; [vm_compute; reflexivity | exact Ht']. }
  assert (Hlon : Below 20 (deg2rad p)).
  { apply (Below_mono 19); [lia|]. apply (deg2rad_Below _ 23); [exact Hp' | lia]. }
  set (lat1 := deg2rad (90 - t)) in *.
  set (lon1 := deg2rad p) in *.
  cbv [flat_map map conformations refs_rad theta phi app].
  repeat (constructor;
          [cbn [snd]; apply landmark_distance_BelowPos;
           first [assumption | vm_compute; reflexivity]|]).
  constructor.
Qed.

(** C1.  For finite binary64 angles [theta_deg] and [phi_deg] the classifier
    returns one of the five family names, never [None].  The name is that
    of the first landmark, in visiting order, at which the minimum of the
    computed distances is reached: no landmark is strictly closer, every
    earlier one is strictly farther, and every family with a landmark at an
    equal distance comes no earlier in the order Chair, Boat, Twist-Boat,
    Half-Chair, Half-Boat. *)
Theorem conformation_haversine_nearest_first_family
    (amplitude : list float64) (theta_deg phi_deg : float64) :
  is_finite theta_deg = true -> is_finite phi_deg = true ->
  exists (label : string) (i : nat) (d : float64),
    conformation_haversine amplitude theta_deg phi_deg = Some label
    /\ In label
         ["Chair (C)"; "Boat (B)"; "Twist-Boat (TB)"; "Half-Chair (HC)";
          "Half-Boat (HB)"]%string
    /\ first_closest (landmark_distances theta_deg phi_deg) i label d
    /\ forall (c' : string) (d' : float64),
        In (c', d') (landmark_distances theta_deg phi_deg) ->
        (d' =? d) = true ->
        (family_rank label <= family_rank c')%nat.
Proof.
  intros Ht Hp.
  set (L := landmark_distances theta_deg phi_deg).
  pose proof (binary64_landmark_distances_finite _ _ Ht Hp) as HF. fold L in HF.
  assert (Hne : L <> []).
  { intros E. pose proof (binary64_landmark_labels theta_deg phi_deg) as Hl.
    fold L in Hl. rewrite E in Hl. discriminate. }
  destruct (binary64_search_first_closest L HF Hne) as (i & c & d & E & Hfc).
  exists c, i, d.
  rewrite binary64_haversine_as_search. fold L. rewrite E.
  split; [reflexivity|]. split; [|split; [exact Hfc|]].
  - rewrite <- family_names_eq. apply landmark_labels_are_families.
    rewrite <- (binary64_landmark_labels theta_deg phi_deg). fold L.
    destruct Hfc as (Hn & _). apply nth_error_In in Hn.
    change c with (fst (c, d)). now apply in_map.
  - intros c' d' Hin Heq. destruct Hfc as (Hn & Hmin & Hfirst).
    pose proof Hin as Hin'.
    apply In_nth_error in Hin as [j Hj].
    destruct (Nat.lt_ge_cases j i) as [Hlt|Hge].
    + specialize (Hfirst j _ Hlt Hj). cbn [snd] in Hfirst.
      rewrite Forall_forall in HF.
      pose proof (BelowPos_not_nan _ _ (HF _ Hin')) as N'.
      apply nth_error_In in Hn.
      pose proof (BelowPos_not_nan _ _ (HF _ Hn)) as N.
      cbn [snd] in N, N'.
      rewrite (lt_not_eqb d d' N N' Hfirst) in Heq. discriminate.
    + exact (binary64_landmark_rank_monotone _ _ i j c c' _ _ Hge Hn Hj).
Qed.

Lemma conformation_haversine_nearest_first_family_witness :
  exists (label : string) (i : nat) (d : float64),
    conformation_haversine [] 105 0 = Some label
    /\ In label
         ["Chair (C)"; "Boat (B)"; "Twist-Boat (TB)"; "Half-Chair (HC)";
          "Half-Boat (HB)"]%string
    /\ first_closest (landmark_distances 105 0) i label d
    /\ forall (c' : string) (d' : float64),
        In (c', d') (landmark_distances 105 0) ->
        (d' =? d) = true ->
        (family_rank label <= family_rank c')%nat.
Proof.
  apply (conformation_haversine_nearest_first_family [] 105 0); reflexivity.
Defined.

(** At [theta_deg = 105], [phi_deg = 0] the Boat landmark [(90, 0)] and the
    Half-Boat landmark at [theta = 120] are both 15 degrees away; the
    computed distances differ in the last digits and the second is the
    smaller. *)
Example half_boat_at_105 :
  conformation_haversine [] 105 0 = Some "Half-Boat (HB)"%string
  /\ nth_error (landmark_distances 105 0) 2
     = Some ("Boat (B)"%string, 0x1.0c152382d7365p-2)
  /\ nth_error (landmark_distances 105 0) 17
     = Some ("Half-Boat (HB)"%string, 0x1.0c152382d7361p-2).
Proof. vm_compute. repeat split. Qed.

(* ================================================================== *)
(** * Binary64: the two remainders decide the label *)
(* ================================================================== *)




(* ================================================================== *)
(** * Binary64: centring a ring *)
(* ================================================================== *)



End Binary64Facts.
